(** * changify.ard: coordinate transforms of the ARD tiling grid

    A shallow embedding of [changify/ard.py] and the properties of its
    affine transforms, grid addressing and window extraction.

    Numbers.  The module's [Num = Union[float, int]] is embedded as the
    rationals [Q]: every Python [int] and every finite [float] is a
    rational, [+], [-], [*] are the exact operations, [/] is Python's true
    division (it raises [ZeroDivisionError] on a zero divisor), [//] is
    floor division and [int(...)] discards the fractional part.  Python's
    [==] on numbers is equality of values, which is [Qeq] here.  A [float]
    carries its exact value, and the operations do not round; the rounding
    of float results to binary64 is added in a second set of definitions
    ([transform_geo_float] and the like), which coincide with the exact
    ones on whole numbers of moderate size.  Values the code types as
    [int] (rows, columns, tile indices) are [Z]. *)

From Stdlib Require Import ZArith QArith Qround Qabs Qpower Lia Lqa List String
  Bool.
Import ListNotations.

Local Open Scope Z_scope.
Local Open Scope Q_scope.

(** ** Exceptions and fallible results *)

(** A raised exception, identified by the name of its class. *)
Inductive exn : Type :=
| Exn (name : string).

Definition ZeroDivisionError : exn := Exn "ZeroDivisionError".
Definition TypeError : exn := Exn "TypeError".
Definition AttributeError : exn := Exn "AttributeError".

Inductive result (A : Type) : Type :=
| Ok (a : A)
| Raise (e : exn).

Arguments Ok {A} a.
Arguments Raise {A} e.

Definition bind {A B : Type} (m : result A) (k : A -> result B) : result B :=
  match m with
  | Ok a => k a
  | Raise e => Raise e
  end.

Notation "x <- m ;; k" := (bind m (fun x => k))
  (at level 61, m at next level, right associativity).

(** ** Python numbers *)

Definition Num : Type := Q.

(** [a / b] *)
Definition truediv (a b : Num) : result Num :=
  if Qeq_bool b 0 then Raise ZeroDivisionError else Ok (a / b).

(** [a // b]: the largest integral value not above the quotient. *)
Definition floordiv (a b : Num) : result Num :=
  if Qeq_bool b 0 then Raise ZeroDivisionError
  else Ok (inject_Z (Qfloor (a / b))).

(** [int(a)]: truncation toward zero. *)
Definition int (a : Num) : Z :=
  Z.quot (Qnum a) (Zpos (Qden a)).

(** ** Containers (the module's NamedTuples) *)

Record GeoExtent : Type := mkGeoExtent
  { xmin : Num; ymax : Num; xmax : Num; ymin : Num }.

Record GeoCoordinate : Type := mkGeoCoordinate
  { x : Num; y : Num }.

Record RowColumn : Type := mkRowColumn
  { row : Z; column : Z }.

Record RowColumnExtent : Type := mkRowColumnExtent
  { st_row : Z; st_col : Z; end_row : Z; end_col : Z }.

(** The affine (a GDAL GeoTransform) is a plain 6-tuple in the source,
    indexed [affine[0]] .. [affine[5]]; the field names are those of the
    docstrings' [GeoAffine(ulx, xres, rot1, uly, rot2, yres)]. *)
Record GeoAffine : Type := mkGeoAffine
  { ulx : Num; xres : Num; rot1 : Num; uly : Num; rot2 : Num; yres : Num }.

(** Python's [==] on two affines: equality of the values, item by item. *)
Definition GeoAffine_eq (a b : GeoAffine) : Prop :=
  ulx a == ulx b /\ xres a == xres b /\ rot1 a == rot1 b /\
  uly a == uly b /\ rot2 a == rot2 b /\ yres a == yres b.

(** ** Module constants (ard.py, lines 56-64) *)

Definition ARDCONUS_EXT : GeoExtent :=
  mkGeoExtent (-2565585) 3314805 2384415 14805.
Definition ARDAK_EXT : GeoExtent :=
  mkGeoExtent (-851715) 2474325 1698285 374325.
Definition ARDHI_EXT : GeoExtent :=
  mkGeoExtent (-444345) 2168895 305655 1718895.

Definition ARDCONUS_CHIPAFF : GeoAffine :=
  mkGeoAffine (xmin ARDCONUS_EXT) 3000 0 (ymax ARDCONUS_EXT) 0 (-3000).

Definition ARDCONUS_TILEAFF : GeoAffine :=
  mkGeoAffine (xmin ARDCONUS_EXT) 150000 0 (ymax ARDCONUS_EXT) 0 (-150000).

(** The extents and the affines the module binds at top level, by name. *)
Definition module_extents : list (string * GeoExtent) :=
  [ ("ARDCONUS_EXT"%string, ARDCONUS_EXT);
    ("ARDAK_EXT"%string, ARDAK_EXT);
    ("ARDHI_EXT"%string, ARDHI_EXT) ].

Definition module_affines : list (string * GeoAffine) :=
  [ ("ARDCONUS_CHIPAFF"%string, ARDCONUS_CHIPAFF);
    ("ARDCONUS_TILEAFF"%string, ARDCONUS_TILEAFF) ].

(** ** Grid addressing and affine transforms *)

(** [ard_hv(h, v, extent)] *)
Definition ard_hv (h v : Z) (extent : GeoExtent) : GeoExtent * GeoAffine :=
  let xmin' := xmin extent + inject_Z (h * 5000 * 30) in
  let xmax' := xmin extent + inject_Z (h * 5000 * 30) + inject_Z (5000 * 30) in
  let ymax' := ymax extent - inject_Z (v * 5000 * 30) in
  let ymin' := ymax extent - inject_Z (v * 5000 * 30) - inject_Z (5000 * 30) in
  (mkGeoExtent xmin' ymax' xmax' ymin',
   mkGeoAffine xmin' 30 0 ymax' 0 (-30)).

(** [fifteen_offset(val)] *)
Definition fifteen_offset (val : Num) : result Z :=
  q <- floordiv val 30 ;;
  Ok (int q * 30 + 15)%Z.

(** [transform_geo(coord, affine)] *)
Definition transform_geo (coord : GeoCoordinate) (affine : GeoAffine)
  : result RowColumn :=
  col <- truediv (x coord - ulx affine - uly affine * rot1 affine) (xres affine) ;;
  row <- truediv (y coord - uly affine - ulx affine * rot2 affine) (yres affine) ;;
  Ok (mkRowColumn (int row) (int col)).

(** [transform_rc(rowcol, affine)] *)
Definition transform_rc (rowcol : RowColumn) (affine : GeoAffine)
  : GeoCoordinate :=
  let x' := ulx affine + inject_Z (column rowcol) * xres affine
            + inject_Z (row rowcol) * rot1 affine in
  let y' := uly affine + inject_Z (column rowcol) * rot2 affine
            + inject_Z (row rowcol) * yres affine in
  mkGeoCoordinate x' y'.

(** [determine_hv(coord, aff)]: the row/column pair reversed, [(h, v)].
    A caller that leaves [aff] out gets [ARDCONUS_TILEAFF]. *)
Definition determine_hv (coord : GeoCoordinate) (aff : GeoAffine)
  : result (Z * Z) :=
  rc <- transform_geo coord aff ;;
  Ok (column rc, row rc).

(** [chipul(coord, aff)].  A caller that leaves [aff] out gets
    [ARDCONUS_CHIPAFF]. *)
Definition chipul (coord : GeoCoordinate) (aff : GeoAffine)
  : result GeoCoordinate :=
  rc <- transform_geo coord aff ;;
  Ok (transform_rc rc aff).

(** [create(x, y, acquired)]: the tile address of the point is computed
    with the default affine and dropped; the body ends in [pass], so the
    call returns [None]. *)
Definition create (x y : Num) (acquired : string) : result unit :=
  hv <- determine_hv (mkGeoCoordinate x y) ARDCONUS_TILEAFF ;;
  let '(h, v) := hv in
  Ok tt.

(** ** Floats: evaluation in binary64 *)

(** The definitions above compute with exact values.  On floats Python
    rounds the result of every operation to binary64: to the nearest
    number [m * 2^e] with [|m| <= 2^53] and [e >= -1074], a tie going to
    the even [m].  (Overflow to infinity, beyond [1.8e308], is left
    out.) *)

(** The nearest integer, a tie going to the even one. *)
Definition round_half_even (a : Q) : Z :=
  let f := Qfloor a in
  match Qcompare (a - inject_Z f) (1 # 2) with
  | Lt => f
  | Gt => (f + 1)%Z
  | Eq => if Z.even f then f else (f + 1)%Z
  end.

(** The exponent [b] with [2^b <= |a| < 2^(b+1)], for [a] not zero. *)
Definition binade (a : Q) : Z :=
  let e := (Z.log2 (Z.abs (Qnum a)) - Z.log2 (Zpos (Qden a)))%Z in
  if Qle_bool (2 ^ e) (Qabs a) then e else (e - 1)%Z.

Definition binary64 (a : Q) : Q :=
  if Qeq_bool a 0 then 0
  else
    let e := Z.max (binade a - 52) (-1074) in
    inject_Z (round_half_even (a / 2 ^ e)) * 2 ^ e.

(** [a + b], [a - b], [a * b] and [a / b] on floats.  An [int] operand
    next to a float is converted to a float first, without loss up to
    [2^53]; between two [int]s Python adds, subtracts and multiplies
    exactly and rounds only the quotient, which is the same thing as long
    as the results stay below [2^53]. *)
Definition float_add (a b : Num) : Num := binary64 (a + b).
Definition float_sub (a b : Num) : Num := binary64 (a - b).
Definition float_mul (a b : Num) : Num := binary64 (a * b).

Definition float_truediv (a b : Num) : result Num :=
  if Qeq_bool b 0 then Raise ZeroDivisionError else Ok (binary64 (a / b)).

(** [transform_geo(coord, affine)] on floats. *)
Definition transform_geo_float (coord : GeoCoordinate) (affine : GeoAffine)
  : result RowColumn :=
  col <- float_truediv
           (float_sub (float_sub (x coord) (ulx affine))
                      (float_mul (uly affine) (rot1 affine)))
           (xres affine) ;;
  row <- float_truediv
           (float_sub (float_sub (y coord) (uly affine))
                      (float_mul (ulx affine) (rot2 affine)))
           (yres affine) ;;
  Ok (mkRowColumn (int row) (int col)).

(** [transform_rc(rowcol, affine)] with a float affine. *)
Definition transform_rc_float (rowcol : RowColumn) (affine : GeoAffine)
  : GeoCoordinate :=
  let x' := float_add
              (float_add (ulx affine)
                         (float_mul (inject_Z (column rowcol)) (xres affine)))
              (float_mul (inject_Z (row rowcol)) (rot1 affine)) in
  let y' := float_add
              (float_add (uly affine)
                         (float_mul (inject_Z (column rowcol)) (rot2 affine)))
              (float_mul (inject_Z (row rowcol)) (yres affine)) in
  mkGeoCoordinate x' y'.

(** [determine_hv(coord, aff)] and [chipul(coord, aff)] on floats. *)
Definition determine_hv_float (coord : GeoCoordinate) (aff : GeoAffine)
  : result (Z * Z) :=
  rc <- transform_geo_float coord aff ;;
  Ok (column rc, row rc).

Definition chipul_float (coord : GeoCoordinate) (aff : GeoAffine)
  : result GeoCoordinate :=
  rc <- transform_geo_float coord aff ;;
  Ok (transform_rc_float rc aff).

(** ** Extents as run-time values *)

(** [split_extent] and [transform_ext] inspect the class of their argument
    with [isinstance]; an argument is one of the two extent tuples or any
    other object. *)
Inductive extent : Type :=
| OfGeoExtent (e : GeoExtent)
| OfRowColumnExtent (e : RowColumnExtent)
| OfOther.

Inductive corner : Type :=
| OfGeoCoordinate (c : GeoCoordinate)
| OfRowColumn (rc : RowColumn).

(** [split_extent(extent)]: the upper left and the lower right. *)
Definition split_extent (ext : extent) : result (corner * corner) :=
  match ext with
  | OfGeoExtent e =>
      Ok (OfGeoCoordinate (mkGeoCoordinate (xmin e) (ymax e)),
          OfGeoCoordinate (mkGeoCoordinate (xmax e) (ymin e)))
  | OfRowColumnExtent e =>
      Ok (OfRowColumn (mkRowColumn (st_row e) (st_col e)),
          OfRowColumn (mkRowColumn (end_row e) (end_col e)))
  | OfOther => Raise TypeError
  end.

(** [transform_ext(extent, affine)]: [map_func] over both corners, the
    results chained into the other kind of extent.  [split_extent] hands a
    [GeoExtent] back as two [GeoCoordinate]s and a [RowColumnExtent] as two
    [RowColumn]s, so the mixed cases of the inner matches never run. *)
Definition transform_ext (ext : extent) (affine : GeoAffine) : result extent :=
  match ext with
  | OfGeoExtent _ =>
      uls <- split_extent ext ;;
      match uls with
      | (OfGeoCoordinate ul, OfGeoCoordinate lr) =>
          a <- transform_geo ul affine ;;
          b <- transform_geo lr affine ;;
          Ok (OfRowColumnExtent
                (mkRowColumnExtent (row a) (column a) (row b) (column b)))
      | _ => Raise TypeError
      end
  | OfRowColumnExtent _ =>
      uls <- split_extent ext ;;
      match uls with
      | (OfRowColumn ul, OfRowColumn lr) =>
          let a := transform_rc ul affine in
          let b := transform_rc lr affine in
          Ok (OfGeoExtent (mkGeoExtent (x a) (y a) (x b) (y b)))
      | _ => Raise TypeError
      end
  | OfOther => Raise TypeError
  end.

(** ** The raster source (GDAL) and window extraction *)

Inductive access : Type := GA_ReadOnly | GA_Update.

Section Raster.

(** What [ReadAsArray] hands back. *)
Variable ndarray : Type.

(** A band answers [ReadAsArray(xoff, yoff, win_xsize, win_ysize)]. *)
Record Band : Type := mkBand
  { ReadAsArray : Z -> Z -> Z -> Z -> result ndarray }.

Record Dataset : Type := mkDataset
  { GetGeoTransform : GeoAffine;
    RasterXSize : Z;
    RasterYSize : Z;
    GetRasterBand : Z -> result Band }.

(** [gdal.Open(path, access)], together with the first use of what it
    returns: a raster that cannot be opened is the [Raise] case. *)
Variable gdal_Open : string -> access -> result Dataset.

Definition open_raster (path : string) (readonly : bool) : result Dataset :=
  if readonly then gdal_Open path GA_ReadOnly
  else gdal_Open path GA_Update.

Definition raster_affine (path : string) : result GeoAffine :=
  ds <- open_raster path true ;;
  Ok (GetGeoTransform ds).

Definition raster_extent (path : string) : result GeoExtent :=
  ds <- open_raster path true ;;
  affine <- raster_affine path ;;
  let rc_lr := mkRowColumn (RasterYSize ds) (RasterXSize ds) in
  let geo_lr := transform_rc rc_lr affine in
  Ok (mkGeoExtent (ulx affine) (uly affine) (x geo_lr) (y geo_lr)).

Definition extract_rcextent (path : string) (rc_extent : RowColumnExtent)
           (band : Z) : result ndarray :=
  ds <- open_raster path true ;;
  uls <- split_extent (OfRowColumnExtent rc_extent) ;;
  match uls with
  | (OfRowColumn ul, OfRowColumn lr) =>
      b <- GetRasterBand ds band ;;
      ReadAsArray b (column ul) (row ul)
                  (column lr - column ul)%Z (row lr - row ul)%Z
  | _ => Raise AttributeError
  end.

Definition extract_geoextent (path : string) (geo_extent : GeoExtent)
           (band : Z) : result ndarray :=
  affine <- raster_affine path ;;
  rc_ext <- transform_ext (OfGeoExtent geo_extent) affine ;;
  match rc_ext with
  | OfRowColumnExtent rc => extract_rcextent path rc band
  | _ => Raise TypeError
  end.

Definition extract_chip (path : string) (coord : GeoCoordinate) (band : Z)
  : result ndarray :=
  chip_ul <- chipul coord ARDCONUS_CHIPAFF ;;
  let chip_ext := mkGeoExtent (x chip_ul) (y chip_ul)
                              (x chip_ul + 3000) (y chip_ul - 3000) in
  extract_geoextent path chip_ext band.

End Raster.

Arguments ReadAsArray {ndarray} b _ _ _ _.
Arguments mkBand {ndarray} _.
Arguments mkDataset {ndarray} _ _ _ _.
Arguments GetGeoTransform {ndarray} d.
Arguments RasterXSize {ndarray} d.
Arguments RasterYSize {ndarray} d.
Arguments GetRasterBand {ndarray} d _.
Arguments open_raster {ndarray} gdal_Open path readonly.
Arguments raster_affine {ndarray} gdal_Open path.
Arguments raster_extent {ndarray} gdal_Open path.
Arguments extract_rcextent {ndarray} gdal_Open path rc_extent band.
Arguments extract_geoextent {ndarray} gdal_Open path geo_extent band.
Arguments extract_chip {ndarray} gdal_Open path coord band.

(** A synthetic in-memory raster: the samples as rows of a list, and a
    reader that hands back whatever part of the window the data covers. *)
Definition window (pixels : list (list Z)) (xoff yoff xsize ysize : Z)
  : list (list Z) :=
  map (fun r => firstn (Z.to_nat xsize) (skipn (Z.to_nat xoff) r))
      (firstn (Z.to_nat ysize) (skipn (Z.to_nat yoff) pixels)).

Definition memory_raster (aff : GeoAffine) (pixels : list (list Z))
  : Dataset (list (list Z)) :=
  mkDataset aff
            (Z.of_nat (List.length (hd [] pixels)))
            (Z.of_nat (List.length pixels))
            (fun _ => Ok (mkBand (fun xoff yoff xsize ysize =>
                                    Ok (window pixels xoff yoff xsize ysize)))).

(** ** Vocabulary of the statements *)

(** Truncation toward zero, stated on the value: the integer next to [a]
    on the side of zero. *)
Definition truncates (z : Z) (a : Q) : Prop :=
  (0 <= a -> inject_Z z <= a < inject_Z (z + 1)) /\
  (a <= 0 -> inject_Z (z - 1) < a <= inject_Z z).

(** Numbers of magnitude at most [2^25], and the whole numbers among
    them.  Python computes with such whole numbers exactly, held as [int]
    or as [float]: a sum, a difference or a product of two of them is a
    whole number below [2^53], which binary64 represents, and the quotient
    of two whole numbers whose magnitudes add up to less than [2^53] keeps
    its integer part when it is rounded to binary64 (lemma
    [int_binary64_quotient]). *)
Definition bounded (a : Num) : Prop :=
  -33554432 <= a <= 33554432.

Definition whole (a : Num) : Prop :=
  a == inject_Z (Qfloor a) /\ bounded a.

Definition whole_coordinate (c : GeoCoordinate) : Prop :=
  whole (x c) /\ whole (y c).

Definition whole_affine (a : GeoAffine) : Prop :=
  whole (ulx a) /\ whole (xres a) /\ whole (rot1 a) /\
  whole (uly a) /\ whole (rot2 a) /\ whole (yres a).

(** The same bound on a row, a column, a tile index or a raster size. *)
Definition in_range (z : Z) : Prop :=
  (-67108864 <= z <= 67108864)%Z.

(** The tile-level affine of a reference extent, after the pattern of
    [ARDCONUS_TILEAFF]: origin at the extent's upper left, cells of
    150000 units, no rotation. *)
Definition tile_affine (ref : GeoExtent) : GeoAffine :=
  mkGeoAffine (xmin ref) 150000 0 (ymax ref) 0 (-150000).

(** An affine derived from an extent with square cells of side [cell]:
    origin at the extent's upper left, no rotation. *)
Definition derived_affine (e : GeoExtent) (cell : Q) (a : GeoAffine) : Prop :=
  GeoAffine_eq a (mkGeoAffine (xmin e) cell 0 (ymax e) 0 (- cell)).

(** The row/column extent reaches outside the pixels of the raster. *)
Definition outside_pixel_bounds {ndarray : Type} (ds : Dataset ndarray)
           (rc : RowColumnExtent) : Prop :=
  (st_row rc < 0 \/ st_col rc < 0 \/
   RasterYSize ds < end_row rc \/ RasterXSize ds < end_col rc)%Z.

(** A two by two raster of 30-unit pixels with its origin at [(0, 0)]. *)
Definition two_by_two : Dataset (list (list Z)) :=
  memory_raster (mkGeoAffine 0 30 0 0 0 (-30)) [[1; 2]; [3; 4]]%Z.

Definition open_two_by_two (path : string) (mode : access)
  : result (Dataset (list (list Z))) :=
  Ok two_by_two.

(** Further synthetic sources: a path that cannot be opened, a raster
    whose geotransform has a zero x pixel size, a raster without bands, and
    a raster carrying the affine of the ARD tile [(5, 2)]. *)
Definition open_missing (path : string) (mode : access)
  : result (Dataset (list (list Z))) :=
  Raise (Exn "RuntimeError").

Definition open_flat (path : string) (mode : access)
  : result (Dataset (list (list Z))) :=
  Ok (memory_raster (mkGeoAffine 0 0 0 0 0 (-30)) [[1; 2]; [3; 4]]%Z).

Definition open_bandless (path : string) (mode : access)
  : result (Dataset (list (list Z))) :=
  Ok (mkDataset (mkGeoAffine 0 30 0 0 0 (-30)) 2 2
                (fun _ => Raise (Exn "RuntimeError"))).

Definition open_tile_5_2 (path : string) (mode : access)
  : result (Dataset (list (list Z))) :=
  Ok (memory_raster (snd (ard_hv 5 2 ARDCONUS_EXT)) [[1; 2]; [3; 4]]%Z).

(** * Properties *)

(** ** The docstrings' examples *)

Example ard_hv_doc :
  ard_hv 5 2 ARDCONUS_EXT =
  (mkGeoExtent (-1815585) 3014805 (-1665585) 2864805,
   mkGeoAffine (-1815585) 30 0 3014805 0 (-30)).
Proof. reflexivity. Qed.

Example transform_geo_doc :
  transform_geo (mkGeoCoordinate (-1767039) 2940090) (snd (ard_hv 5 2 ARDCONUS_EXT))
  = Ok (mkRowColumn 2490 1618).
Proof. reflexivity. Qed.

Example transform_rc_doc :
  transform_rc (mkRowColumn 2490 1618) (snd (ard_hv 5 2 ARDCONUS_EXT))
  = mkGeoCoordinate (-1767045) 2940105.
Proof. reflexivity. Qed.

Example fifteen_offset_doc :
  fifteen_offset 1 = Ok 15%Z /\ fifteen_offset (-1) = Ok (-15)%Z /\
  fifteen_offset 0 = Ok 15%Z /\ fifteen_offset (1 # 10) = Ok 15%Z.
Proof. repeat split; reflexivity. Qed.

(** ** Numbers: division and truncation *)

Lemma truediv_ok (a b : Num) : ~ b == 0 -> truediv a b = Ok (a / b).
Proof.
  intros Hb. unfold truediv.
  destruct (Qeq_bool b 0) eqn:E; [ | reflexivity ].
  apply Qeq_bool_eq in E. contradiction.
Qed.

Lemma truediv_zero (a b : Num) : b == 0 -> truediv a b = Raise ZeroDivisionError.
Proof.
  intros Hb. unfold truediv.
  now rewrite (Qeq_eq_bool _ _ Hb).
Qed.

Lemma int_nonneg (a : Num) : 0 <= a -> int a = Qfloor a.
Proof.
  destruct a as [n d]. unfold Qle, int, Qfloor. simpl. intros Hn.
  apply Z.quot_div_nonneg; lia.
Qed.

Lemma int_nonpos (a : Num) : a <= 0 -> int a = Qceiling a.
Proof.
  destruct a as [n d]. unfold Qle, int, Qceiling, Qfloor. simpl. intros Hn.
  rewrite <- (Z.opp_involutive n) at 1.
  rewrite Z.quot_opp_l by discriminate.
  f_equal. apply Z.quot_div_nonneg; lia.
Qed.

Lemma int_comp (a b : Num) : a == b -> int a = int b.
Proof.
  intros Hab. destruct (Qlt_le_dec a 0) as [Hneg | Hpos].
  - rewrite (int_nonpos a), (int_nonpos b); try lra.
    now rewrite Hab.
  - rewrite (int_nonneg a), (int_nonneg b); try lra.
    now rewrite Hab.
Qed.

Lemma int_inject_Z (z : Z) : int (inject_Z z) = z.
Proof. unfold int. simpl. apply Z.quot_1_r. Qed.

Lemma int_truncates (a : Num) : truncates (int a) a.
Proof.
  split; intros Ha.
  - rewrite (int_nonneg a Ha). split; [ apply Qfloor_le | apply Qlt_floor ].
  - rewrite (int_nonpos a Ha). split; [ apply Qceiling_lt | apply Qle_ceiling ].
Qed.

Lemma truncates_unique (z z' : Z) (a : Q) :
  truncates z a -> truncates z' a -> z = z'.
Proof.
  intros [Hp Hn] [Hp' Hn'].
  destruct (Qlt_le_dec a 0) as [Hneg | Hpos].
  - assert (Ha : a <= 0) by lra.
    specialize (Hn Ha). specialize (Hn' Ha).
    destruct Hn as [H1 H2], Hn' as [H3 H4].
    assert (inject_Z (z - 1) < inject_Z z') by lra.
    assert (inject_Z (z' - 1) < inject_Z z) by lra.
    rewrite <- Zlt_Qlt in *. lia.
  - specialize (Hp Hpos). specialize (Hp' Hpos).
    destruct Hp as [H1 H2], Hp' as [H3 H4].
    assert (inject_Z z < inject_Z (z' + 1)) by lra.
    assert (inject_Z z' < inject_Z (z + 1)) by lra.
    rewrite <- Zlt_Qlt in *. lia.
Qed.

(** ** ard_hv *)

Lemma tile_side (k : Z) : inject_Z (k * 5000 * 30) == inject_Z k * 150000.
Proof.
  rewrite 2!inject_Z_mult.
  change (inject_Z 5000) with 5000. change (inject_Z 30) with 30.
  ring.
Qed.

(** C6.  For all tile indices [h], [v] (negative ones too) and every
    reference extent, [ard_hv] returns the extent with
    [xmin = ref.xmin + h*150000], [ymax = ref.ymax - v*150000],
    [xmax = xmin + 150000], [ymin = ymax - 150000], and the affine
    [(xmin, 30, 0, ymax, 0, -30)]; [ard_hv(5, 2)] on the continental
    reference is the extent [(-1815585, 3014805, -1665585, 2864805)] with
    the affine [(-1815585, 30, 0, 3014805, 0, -30)]. *)
Theorem ard_hv_extent_affine (h v : Z) (ref : GeoExtent) :
  (let ext := fst (ard_hv h v ref) in
   let aff := snd (ard_hv h v ref) in
   xmin ext == xmin ref + inject_Z h * 150000 /\
   ymax ext == ymax ref - inject_Z v * 150000 /\
   xmax ext == xmin ext + 150000 /\
   ymin ext == ymax ext - 150000 /\
   aff = mkGeoAffine (xmin ext) 30 0 (ymax ext) 0 (-30)) /\
  ard_hv 5 2 ARDCONUS_EXT =
    (mkGeoExtent (-1815585) 3014805 (-1665585) 2864805,
     mkGeoAffine (-1815585) 30 0 3014805 0 (-30)).
Proof.
  split; [ | reflexivity ].
  unfold ard_hv. cbv zeta. cbn [fst snd xmin ymax xmax ymin].
  pose proof (tile_side h) as Hh. pose proof (tile_side v) as Hv.
  change (inject_Z (5000 * 30)) with 150000.
  repeat split.
  - now rewrite Hh.
  - now rewrite Hv.
Qed.

(** ** transform_geo *)

Lemma transform_geo_ok (coord : GeoCoordinate) (affine : GeoAffine) :
  ~ xres affine == 0 -> ~ yres affine == 0 ->
  transform_geo coord affine =
  Ok (mkRowColumn
        (int ((y coord - uly affine - ulx affine * rot2 affine) / yres affine))
        (int ((x coord - ulx affine - uly affine * rot1 affine) / xres affine))).
Proof.
  intros Hx Hy. unfold transform_geo.
  rewrite (truediv_ok _ _ Hx). cbn [bind].
  rewrite (truediv_ok _ _ Hy). reflexivity.
Qed.

Lemma transform_geo_raises (coord : GeoCoordinate) (affine : GeoAffine) :
  xres affine == 0 \/ yres affine == 0 ->
  transform_geo coord affine = Raise ZeroDivisionError.
Proof.
  intros H. unfold transform_geo.
  destruct (Qeq_dec (xres affine) 0) as [Hx | Hx].
  - now rewrite (truediv_zero _ _ Hx).
  - rewrite (truediv_ok _ _ Hx). cbn [bind].
    destruct H as [H | H]; [ contradiction | ].
    now rewrite (truediv_zero _ _ H).
Qed.

(** C3, as stated, fails once a rotation term is non-zero: for the affine
    [(0, 30, 1, 0, 0, -30)] and the coordinate [(60, 0)] the claimed row is
    [(0 - 0 - 60*1) / -30 = 2], the code returns row [0]. *)
Lemma transform_geo_formula_counterexample :
  let coord := mkGeoCoordinate 60 0 in
  let aff := mkGeoAffine 0 30 1 0 0 (-30) in
  ~ xres aff == 0 /\ ~ yres aff == 0 /\
  transform_geo coord aff = Ok (mkRowColumn 0 2) /\
  int ((y coord - uly aff - x coord * rot1 aff) / yres aff) = 2%Z /\
  transform_geo coord aff <>
  Ok (mkRowColumn
        (int ((y coord - uly aff - x coord * rot1 aff) / yres aff))
        (int ((x coord - ulx aff - y coord * rot2 aff) / xres aff))).
Proof.
  cbv zeta. repeat split; try (intros H; discriminate H); reflexivity.
Qed.

(** C3, amended.  For every coordinate and every affine made of whole
    numbers (of magnitude at most [2^25], where Python's arithmetic is
    exact), with non-zero pixel sizes and zero rotation terms,
    [transform_geo] returns the row
    [(coord.y - origin_y - coord.x * x_rotation) / y_pixel_size] and the
    column [(coord.x - origin_x - coord.y * y_rotation) / x_pixel_size],
    each truncated toward zero; [transform_geo((-1767039, 2940090))] under
    [(-1815585, 30, 0, 3014805, 0, -30)] is [(row=2490, column=1618)]. *)
Theorem transform_geo_unrotated (coord : GeoCoordinate) (affine : GeoAffine) :
  whole_coordinate coord -> whole_affine affine ->
  ~ xres affine == 0 -> ~ yres affine == 0 ->
  rot1 affine == 0 -> rot2 affine == 0 ->
  (exists rc,
     transform_geo coord affine = Ok rc /\
     truncates (row rc)
       ((y coord - uly affine - x coord * rot1 affine) / yres affine) /\
     truncates (column rc)
       ((x coord - ulx affine - y coord * rot2 affine) / xres affine)) /\
  transform_geo (mkGeoCoordinate (-1767039) 2940090)
                (mkGeoAffine (-1815585) 30 0 3014805 0 (-30))
  = Ok (mkRowColumn 2490 1618).
Proof.
  intros _ _ Hx Hy Hr1 Hr2. split; [ | reflexivity ].
  eexists. split; [ apply (transform_geo_ok coord affine Hx Hy) | ].
  cbn [row column]. split.
  - rewrite (int_comp _ ((y coord - uly affine - x coord * rot1 affine) / yres affine)).
    + apply int_truncates.
    + rewrite Hr1, Hr2. apply Qdiv_comp; [ ring | reflexivity ].
  - rewrite (int_comp _ ((x coord - ulx affine - y coord * rot2 affine) / xres affine)).
    + apply int_truncates.
    + rewrite Hr1, Hr2. apply Qdiv_comp; [ ring | reflexivity ].
Qed.

Lemma transform_geo_unrotated_witness :
  exists rc,
    transform_geo (mkGeoCoordinate (-1767039) 2940090)
                  (mkGeoAffine (-1815585) 30 0 3014805 0 (-30)) = Ok rc /\
    truncates (row rc) ((2940090 - 3014805 - (-1767039) * 0) / (-30)) /\
    truncates (column rc) (((-1767039) - (-1815585) - 2940090 * 0) / 30).
Proof.
  apply (transform_geo_unrotated
           (mkGeoCoordinate (-1767039) 2940090)
           (mkGeoAffine (-1815585) 30 0 3014805 0 (-30)));
    unfold whole_coordinate, whole_affine, whole, bounded;
    cbn [x y ulx xres rot1 uly rot2 yres];
    repeat split; try reflexivity; intros H; discriminate H.
Defined.

(** C8, as stated, fails: with a zero pixel size the exception raised is
    Python's own [ZeroDivisionError]; the module has no [InvalidAffine]. *)
Lemma transform_geo_invalidaffine_counterexample :
  let coord := mkGeoCoordinate 0 0 in
  let aff := mkGeoAffine 0 0 0 0 0 (-30) in
  xres aff == 0 /\
  transform_geo coord aff = Raise (Exn "ZeroDivisionError") /\
  transform_geo coord aff <> Raise (Exn "InvalidAffine").
Proof.
  cbv zeta. repeat split; try reflexivity. intros H; discriminate H.
Qed.

(** C8, amended.  For every coordinate and every affine one of whose pixel
    sizes is zero, [transform_geo] returns no row/column: it fails with the
    [ZeroDivisionError] of the division. *)
Theorem transform_geo_zero_pixel_size (coord : GeoCoordinate) (affine : GeoAffine) :
  xres affine == 0 \/ yres affine == 0 ->
  transform_geo coord affine = Raise ZeroDivisionError /\
  (forall rc, transform_geo coord affine <> Ok rc).
Proof.
  intros H. rewrite (transform_geo_raises coord affine H).
  split; [ reflexivity | intros rc Hrc; discriminate Hrc ].
Qed.

Lemma transform_geo_zero_pixel_size_witness :
  transform_geo (mkGeoCoordinate 0 0) (mkGeoAffine 0 30 0 0 0 0)
  = Raise ZeroDivisionError /\
  (forall rc, transform_geo (mkGeoCoordinate 0 0) (mkGeoAffine 0 30 0 0 0 0)
              <> Ok rc).
Proof.
  apply (transform_geo_zero_pixel_size
           (mkGeoCoordinate 0 0) (mkGeoAffine 0 30 0 0 0 0)).
  right. reflexivity.
Defined.

(** ** Round trip through pixel space *)

(** With zero rotation terms the forward transform followed by the inverse
    is the identity on rows and columns. *)
Lemma transform_rc_geo_unrotated (rowcol : RowColumn) (affine : GeoAffine) :
  ~ xres affine == 0 -> ~ yres affine == 0 ->
  rot1 affine == 0 -> rot2 affine == 0 ->
  transform_geo (transform_rc rowcol affine) affine = Ok rowcol.
Proof.
  intros Hx Hy Hr1 Hr2. rewrite (transform_geo_ok _ _ Hx Hy).
  destruct rowcol as [r c]. unfold transform_rc. cbn [x y row column].
  f_equal. f_equal.
  - rewrite <- (int_inject_Z r) at 2. apply int_comp.
    rewrite Hr2. field. exact Hy.
  - rewrite <- (int_inject_Z c) at 2. apply int_comp.
    rewrite Hr1. field. exact Hx.
Qed.

(** C1 at a rotated affine.  The docstring of [transform_geo] gives the
    column as [(Xgeo - GT(0) - Yline*GT(2)) / GT(1)]; the code subtracts
    [GT(3)*GT(2)], the origin in place of the line.  Under
    [(0, 30, 1, 0, 0, -30)] the pixel [(row=30, column=0)] maps to
    [(30, -900)] and comes back as [(row=30, column=1)]. *)
Theorem transform_rc_geo_rotated :
  let aff := mkGeoAffine 0 30 1 0 0 (-30) in
  let rowcol := mkRowColumn 30 0 in
  ~ xres aff == 0 /\ ~ yres aff == 0 /\
  transform_rc rowcol aff = mkGeoCoordinate 30 (-900) /\
  transform_geo (transform_rc rowcol aff) aff = Ok (mkRowColumn 30 1) /\
  transform_geo (transform_rc rowcol aff) aff <> Ok rowcol.
Proof.
  cbv zeta. repeat split; try reflexivity; intros H; discriminate H.
Qed.

(** ** determine_hv *)

Lemma ARDCONUS_TILEAFF_tile_affine :
  ARDCONUS_TILEAFF = tile_affine ARDCONUS_EXT.
Proof. reflexivity. Qed.

Lemma determine_hv_tile (coord : GeoCoordinate) (ref : GeoExtent) :
  determine_hv coord (tile_affine ref) =
  Ok (int ((x coord - xmin ref - ymax ref * 0) / 150000),
      int ((y coord - ymax ref - xmin ref * 0) / (-150000))).
Proof.
  unfold determine_hv. rewrite transform_geo_ok.
  - reflexivity.
  - cbn [xres tile_affine]. intros H; discriminate H.
  - cbn [yres tile_affine]. intros H; discriminate H.
Qed.

(** C5.  For all tile indices [h], [v], the upper-left corner
    [(xmin, ymax)] of the extent of [ard_hv(h, v, REF)], given to
    [determine_hv] with REF's tile-level affine, comes back as [(h, v)]:
    [h] is the column and [v] the row of [transform_geo]. *)
Theorem determine_hv_ard_hv (h v : Z) (ref : GeoExtent) :
  let ext := fst (ard_hv h v ref) in
  let ul := mkGeoCoordinate (xmin ext) (ymax ext) in
  determine_hv ul (tile_affine ref) = Ok (h, v) /\
  transform_geo ul (tile_affine ref) = Ok (mkRowColumn v h) /\
  determine_hv
    (mkGeoCoordinate (xmin (fst (ard_hv h v ARDCONUS_EXT)))
                     (ymax (fst (ard_hv h v ARDCONUS_EXT))))
    ARDCONUS_TILEAFF = Ok (h, v).
Proof.
  assert (Hgen : forall r : GeoExtent,
             transform_geo
               (mkGeoCoordinate (xmin (fst (ard_hv h v r)))
                                (ymax (fst (ard_hv h v r))))
               (tile_affine r) = Ok (mkRowColumn v h)).
  { intros r. rewrite transform_geo_ok.
    - unfold ard_hv, tile_affine. cbv zeta.
      cbn [fst xmin ymax x y ulx uly xres yres rot1 rot2].
      pose proof (tile_side h) as Hh. pose proof (tile_side v) as Hv.
      f_equal. f_equal.
      + rewrite <- (int_inject_Z v) at 2. apply int_comp.
        rewrite Hv. field.
      + rewrite <- (int_inject_Z h) at 2. apply int_comp.
        rewrite Hh. field.
    - cbn [xres tile_affine]. intros H; discriminate H.
    - cbn [yres tile_affine]. intros H; discriminate H. }
  cbv zeta. repeat split.
  - unfold determine_hv. now rewrite Hgen.
  - apply Hgen.
  - rewrite ARDCONUS_TILEAFF_tile_affine. unfold determine_hv.
    now rewrite Hgen.
Qed.

Lemma int_small (a : Num) : -1 < a < 1 -> int a = 0%Z.
Proof.
  intros [Hlo Hhi]. apply (truncates_unique (int a) 0 a).
  - apply int_truncates.
  - split; intros H.
    + change (inject_Z 0) with 0. change (inject_Z (0 + 1)) with 1. lra.
    + change (inject_Z 0) with 0. change (inject_Z (0 - 1)) with (-1). lra.
Qed.

(** C10.  Truncation toward zero gives every coordinate less than one tile
    width left of the reference extent ([ref.xmin - 150000 < x < ref.xmin])
    the horizontal address [h = 0], and so the whole address of the
    coordinates of the same [y] inside the first tile column
    ([ref.xmin <= x < ref.xmin + 150000]): no negative [h] there, and
    [determine_hv] is not injective across the left edge. *)
Theorem determine_hv_left_of_grid (ref : GeoExtent) (coord : GeoCoordinate) :
  xmin ref - 150000 < x coord < xmin ref ->
  exists v : Z,
    determine_hv coord (tile_affine ref) = Ok (0%Z, v) /\
    forall inside : GeoCoordinate,
      xmin ref <= x inside < xmin ref + 150000 ->
      y inside == y coord ->
      determine_hv inside (tile_affine ref) = Ok (0%Z, v).
Proof.
  intros [Hlo Hhi].
  exists (int ((y coord - ymax ref - xmin ref * 0) / (-150000))).
  split.
  - rewrite determine_hv_tile. f_equal. f_equal.
    apply int_small.
    assert (E : (x coord - xmin ref - ymax ref * 0) / 150000
                == (x coord - xmin ref) * (1 # 150000)) by (field).
    rewrite E. lra.
  - intros inside [Ilo Ihi] Hy.
    rewrite determine_hv_tile. f_equal. f_equal.
    + apply int_small.
      assert (E : (x inside - xmin ref - ymax ref * 0) / 150000
                  == (x inside - xmin ref) * (1 # 150000)) by (field).
      rewrite E. lra.
    + apply int_comp. now rewrite Hy.
Qed.

Lemma determine_hv_left_of_grid_witness :
  exists v : Z,
    determine_hv (mkGeoCoordinate (-2565586) 3314805) (tile_affine ARDCONUS_EXT)
    = Ok (0%Z, v) /\
    forall inside : GeoCoordinate,
      xmin ARDCONUS_EXT <= x inside < xmin ARDCONUS_EXT + 150000 ->
      y inside == y (mkGeoCoordinate (-2565586) 3314805) ->
      determine_hv inside (tile_affine ARDCONUS_EXT) = Ok (0%Z, v).
Proof.
  apply (determine_hv_left_of_grid ARDCONUS_EXT
           (mkGeoCoordinate (-2565586) 3314805)).
  cbn [x xmin ARDCONUS_EXT]. split; reflexivity.
Defined.

Example determine_hv_left_doc :
  determine_hv (mkGeoCoordinate (-2565586) 3314805) ARDCONUS_TILEAFF
  = Ok (0%Z, 0%Z) /\
  determine_hv (mkGeoCoordinate (-2565585) 3314805) ARDCONUS_TILEAFF
  = Ok (0%Z, 0%Z).
Proof. split; reflexivity. Qed.

(** ** chipul *)

Lemma int_nonneg_bounds (a : Num) :
  0 <= a -> inject_Z (int a) <= a < inject_Z (int a) + 1.
Proof.
  intros Ha. destruct (int_truncates a) as [Hp _]. specialize (Hp Ha).
  rewrite inject_Z_plus in Hp. change (inject_Z 1) with 1 in Hp. exact Hp.
Qed.

(** C7, as stated, fails left of (and above) the reference origin, where
    truncation toward zero snaps toward the origin: one unit left of it,
    [chipul] returns the origin itself, which lies right of the
    coordinate. *)
Lemma chipul_left_of_origin_counterexample :
  let coord := mkGeoCoordinate (-2565586) 3314805 in
  exists ul,
    chipul coord ARDCONUS_CHIPAFF = Ok ul /\
    ul = mkGeoCoordinate (-2565585) 3314805 /\
    ~ (x ul <= x coord < x ul + 3000).
Proof.
  cbv zeta. eexists. split; [ reflexivity | ]. split; [ reflexivity | ].
  cbn [x]. intros [H _]. revert H. apply Qlt_not_le. reflexivity.
Qed.

(** C7, amended.  For every coordinate of whole numbers (of magnitude at
    most [2^25], where Python's arithmetic is exact) at or right of the
    reference origin's [x] and at or below its [y], [chipul] returns the
    upper-left corner of the 3000-unit chip cell that contains the
    coordinate:
    [ulx <= coord.x < ulx + 3000], [uly - 3000 < coord.y <= uly], and
    [(ulx, uly)] lies on the chip lattice anchored at the reference
    origin. *)
Theorem chipul_containing_chip (coord : GeoCoordinate) :
  whole_coordinate coord ->
  xmin ARDCONUS_EXT <= x coord -> y coord <= ymax ARDCONUS_EXT ->
  exists (ul : GeoCoordinate) (i j : Z),
    chipul coord ARDCONUS_CHIPAFF = Ok ul /\
    x ul <= x coord < x ul + 3000 /\
    y ul - 3000 < y coord <= y ul /\
    x ul == xmin ARDCONUS_EXT + inject_Z i * 3000 /\
    y ul == ymax ARDCONUS_EXT - inject_Z j * 3000.
Proof.
  intros _ Hx Hy. unfold chipul.
  rewrite transform_geo_ok;
    [ | cbn [xres ARDCONUS_CHIPAFF]; intros H; discriminate H
      | cbn [yres ARDCONUS_CHIPAFF]; intros H; discriminate H ].
  cbn [bind].
  cbn [ARDCONUS_CHIPAFF ARDCONUS_EXT xmin ymax ulx uly xres yres rot1 rot2]
    in *.
  set (A := (x coord - -2565585 - 3314805 * 0) / 3000).
  set (B := (y coord - 3314805 - -2565585 * 0) / -3000).
  assert (EA : A == (x coord + 2565585) * (1 # 3000)) by (unfold A; field).
  assert (EB : B == (3314805 - y coord) * (1 # 3000)) by (unfold B; field).
  assert (HA : 0 <= A) by (rewrite EA; lra).
  assert (HB : 0 <= B) by (rewrite EB; lra).
  pose proof (int_nonneg_bounds A HA) as [A1 A2].
  pose proof (int_nonneg_bounds B HB) as [B1 B2].
  set (c := int A) in *. set (r := int B) in *.
  rewrite EA in A1, A2. rewrite EB in B1, B2.
  exists (transform_rc (mkRowColumn r c)
                       (mkGeoAffine (-2565585) 3000 0 3314805 0 (-3000))),
         c, r.
  split; [ reflexivity | ].
  unfold transform_rc. cbn [x y row column ulx uly xres yres rot1 rot2].
  repeat split; try lra.
Qed.

Lemma chipul_containing_chip_witness :
  exists (ul : GeoCoordinate) (i j : Z),
    chipul (mkGeoCoordinate (-1767039) 2940090) ARDCONUS_CHIPAFF = Ok ul /\
    x ul <= -1767039 < x ul + 3000 /\
    y ul - 3000 < 2940090 <= y ul /\
    x ul == xmin ARDCONUS_EXT + inject_Z i * 3000 /\
    y ul == ymax ARDCONUS_EXT - inject_Z j * 3000.
Proof.
  apply (chipul_containing_chip (mkGeoCoordinate (-1767039) 2940090));
    unfold whole_coordinate, whole, bounded;
    cbn [x y xmin ymax ARDCONUS_EXT];
    repeat split; try reflexivity; intros H; discriminate H.
Defined.

(** ** fifteen_offset *)

(** C9.  For every value, negative and fractional ones included,
    [fifteen_offset] returns [floor(val / 30) * 30 + 15] with the floor
    toward negative infinity: the result [r] satisfies
    [r - 15 <= val < r + 15]; it is an odd multiple of 15, and [r - 15] is
    a multiple of 30.  ([fifteen_offset(-1)] is [-15], not the [15] of a
    truncation toward zero.) *)
Theorem fifteen_offset_floor (val : Num) :
  exists r : Z,
    fifteen_offset val = Ok r /\
    r = (Qfloor (val / 30) * 30 + 15)%Z /\
    inject_Z (r - 15) <= val < inject_Z (r + 15) /\
    (exists m : Z, Z.odd m = true /\ r = (15 * m)%Z) /\
    (30 | r - 15)%Z /\
    fifteen_offset (-1) = Ok (-15)%Z.
Proof.
  exists (Qfloor (val / 30) * 30 + 15)%Z.
  set (k := Qfloor (val / 30)).
  assert (Hlo : inject_Z k <= val / 30) by apply Qfloor_le.
  assert (Hhi : val / 30 < inject_Z (k + 1)) by apply Qlt_floor.
  assert (E : val / 30 == val * (1 # 30)) by field.
  rewrite E in Hlo, Hhi.
  rewrite inject_Z_plus in Hhi. change (inject_Z 1) with 1 in Hhi.
  repeat split.
  - unfold fifteen_offset, floordiv.
    change (Qeq_bool 30 0) with false. cbn [bind].
    rewrite int_inject_Z. reflexivity.
  - replace (k * 30 + 15 - 15)%Z with (k * 30)%Z by lia.
    rewrite inject_Z_mult. change (inject_Z 30) with 30. lra.
  - replace (k * 30 + 15 + 15)%Z with (k * 30 + 30)%Z by lia.
    rewrite inject_Z_plus, inject_Z_mult. change (inject_Z 30) with 30. lra.
  - exists (2 * k + 1)%Z. split.
    + rewrite Z.add_comm, Z.odd_add_mul_2. reflexivity.
    + lia.
  - exists k. lia.
Qed.

(** ** Published constants *)

(** C2, as stated, fails: no published affine has cells of 30 units, and
    the Alaska and Hawaii extents have no affine at all. *)
Lemma module_affines_counterexample :
  ~ (forall name e, In (name, e) module_extents ->
       exists tname tile cname chip,
         In (tname, tile) module_affines /\ derived_affine e 150000 tile /\
         In (cname, chip) module_affines /\ derived_affine e 30 chip).
Proof.
  intros H.
  destruct (H "ARDCONUS_EXT"%string ARDCONUS_EXT) as
      (tname & tile & cname & chip & _ & _ & Hin & Hchip).
  { left. reflexivity. }
  destruct Hchip as (_ & Hres & _).
  destruct Hin as [Hin | [Hin | []]]; inversion Hin; subst chip;
    discriminate Hres.
Qed.

(** C2, amended.  The module publishes three reference extents
    (continental, Alaska, Hawaii) with fixed numeric bounds; the continental
    one alone is paired with two derived affines: a tile affine with cells
    of 150,000 units and a chip affine with cells of 3,000 units. *)
Theorem module_constants :
  map snd module_extents =
    [ mkGeoExtent (-2565585) 3314805 2384415 14805;
      mkGeoExtent (-851715) 2474325 1698285 374325;
      mkGeoExtent (-444345) 2168895 305655 1718895 ] /\
  module_affines =
    [ ("ARDCONUS_CHIPAFF"%string, mkGeoAffine (-2565585) 3000 0 3314805 0 (-3000));
      ("ARDCONUS_TILEAFF"%string, mkGeoAffine (-2565585) 150000 0 3314805 0 (-150000)) ] /\
  derived_affine ARDCONUS_EXT 150000 ARDCONUS_TILEAFF /\
  derived_affine ARDCONUS_EXT 3000 ARDCONUS_CHIPAFF /\
  (forall name a cell,
     In (name, a) module_affines ->
     ~ derived_affine ARDAK_EXT cell a /\ ~ derived_affine ARDHI_EXT cell a).
Proof.
  split; [ reflexivity | ]. split; [ reflexivity | ].
  split; [ repeat split | ]. split; [ repeat split | ].
  intros name a cell Hin.
  destruct Hin as [Hin | [Hin | []]]; inversion Hin; subst a;
    split; intros (Hulx & _); discriminate Hulx.
Qed.

(** ** Window extraction *)

(** C4, as stated, fails: the module has no bounds check and no
    [ExtentOutOfBounds]; what comes back is what the raster source's read
    gives.  On a source that hands back the part of the window it covers,
    an extent whose lower right lies beyond the raster yields a truncated
    array (one column and two rows of the two columns and three rows
    asked for). *)
Lemma extract_geoextent_counterexample :
  let e := mkGeoExtent 30 0 90 (-90) in
  transform_ext (OfGeoExtent e) (GetGeoTransform two_by_two)
    = Ok (OfRowColumnExtent (mkRowColumnExtent 0 1 3 3)) /\
  outside_pixel_bounds two_by_two (mkRowColumnExtent 0 1 3 3) /\
  extract_geoextent open_two_by_two "raster.tif" e 1 = Ok [[2]; [4]]%Z /\
  extract_geoextent open_two_by_two "raster.tif" e 1
    <> Raise (Exn "ExtentOutOfBounds").
Proof.
  cbv zeta. split; [ reflexivity | ]. split.
  - right. right. left. reflexivity.
  - split; [ reflexivity | intros H; discriminate H ].
Qed.

(** C4, amended.  For every raster source and every GeoExtent, inside the
    raster's pixel bounds or not, [extract_geoextent] checks no bounds: it
    hands the window [(ul.column, ul.row, lr.column - ul.column,
    lr.row - ul.row)] of the transformed corners to the source's
    [ReadAsArray] and returns whatever that read returns or raises. *)
Theorem extract_geoextent_reads_window
        {ndarray : Type}
        (gdal_Open : string -> access -> result (Dataset ndarray))
        (path : string) (geo_extent : GeoExtent) (band : Z)
        (ds : Dataset ndarray) (b : Band ndarray) (ul lr : RowColumn) :
  gdal_Open path GA_ReadOnly = Ok ds ->
  transform_geo (mkGeoCoordinate (xmin geo_extent) (ymax geo_extent))
                (GetGeoTransform ds) = Ok ul ->
  transform_geo (mkGeoCoordinate (xmax geo_extent) (ymin geo_extent))
                (GetGeoTransform ds) = Ok lr ->
  GetRasterBand ds band = Ok b ->
  extract_geoextent gdal_Open path geo_extent band =
  ReadAsArray b (column ul) (row ul)
              (column lr - column ul)%Z (row lr - row ul)%Z.
Proof.
  intros Hopen Hul Hlr Hband.
  unfold extract_geoextent, raster_affine, open_raster.
  rewrite Hopen. cbn [bind].
  unfold transform_ext, split_extent. cbn [bind].
  rewrite Hul. cbn [bind]. rewrite Hlr. cbn [bind].
  unfold extract_rcextent, open_raster, split_extent.
  rewrite Hopen. cbn [bind st_row st_col end_row end_col row column].
  rewrite Hband. reflexivity.
Qed.

Lemma extract_geoextent_reads_window_witness :
  extract_geoextent open_two_by_two "raster.tif"
                    (mkGeoExtent 30 0 90 (-90)) 1 =
  Ok (window [[1; 2]; [3; 4]]%Z 1 0 (3 - 1) (3 - 0)).
Proof.
  apply (extract_geoextent_reads_window
           open_two_by_two "raster.tif" (mkGeoExtent 30 0 90 (-90)) 1
           two_by_two
           (mkBand (fun xoff yoff xsize ysize =>
                      Ok (window [[1; 2]; [3; 4]]%Z xoff yoff xsize ysize)))
           (mkRowColumn 0 1) (mkRowColumn 3 3));
    reflexivity.
Defined.

(** * Further properties of the module *)

(** ** transform_ext and split_extent *)

Lemma transform_ext_geo_ok (e : GeoExtent) (affine : GeoAffine) :
  ~ xres affine == 0 -> ~ yres affine == 0 ->
  exists ul lr,
    transform_geo (mkGeoCoordinate (xmin e) (ymax e)) affine = Ok ul /\
    transform_geo (mkGeoCoordinate (xmax e) (ymin e)) affine = Ok lr /\
    transform_ext (OfGeoExtent e) affine =
    Ok (OfRowColumnExtent
          (mkRowColumnExtent (row ul) (column ul) (row lr) (column lr))).
Proof.
  intros Hx Hy.
  eexists. eexists.
  split; [ apply (transform_geo_ok _ _ Hx Hy) | ].
  split; [ apply (transform_geo_ok _ _ Hx Hy) | ].
  unfold transform_ext, split_extent. cbn [bind].
  rewrite !(transform_geo_ok _ _ Hx Hy). reflexivity.
Qed.

(** X1.  An argument that is neither kind of extent makes [split_extent]
    raise [TypeError], and [transform_ext] under every affine; a GeoExtent
    under an affine one of whose pixel sizes is zero makes [transform_ext]
    raise [ZeroDivisionError], whatever the extent. *)
Theorem transform_ext_errors (e : GeoExtent) (affine any : GeoAffine) :
  xres affine == 0 \/ yres affine == 0 ->
  transform_ext (OfGeoExtent e) affine = Raise ZeroDivisionError /\
  transform_ext OfOther any = Raise TypeError /\
  split_extent OfOther = Raise TypeError.
Proof.
  intros H. repeat split.
  unfold transform_ext, split_extent. cbn [bind].
  now rewrite (transform_geo_raises _ _ H).
Qed.

Lemma transform_ext_errors_witness :
  transform_ext (OfGeoExtent ARDCONUS_EXT) (mkGeoAffine 0 0 0 0 0 (-30))
  = Raise ZeroDivisionError /\
  transform_ext OfOther ARDCONUS_CHIPAFF = Raise TypeError /\
  split_extent OfOther = Raise TypeError.
Proof.
  apply (transform_ext_errors ARDCONUS_EXT (mkGeoAffine 0 0 0 0 0 (-30))
                              ARDCONUS_CHIPAFF).
  left. reflexivity.
Defined.

(** X2.  Under a north-up affine (positive x pixel size, negative y pixel
    size, no rotation) [transform_ext] maps a RowColumnExtent whose rows
    and columns are in order, [st_row <= end_row] and
    [st_col <= end_col], to a GeoExtent that is in order as well:
    [xmin <= xmax] and [ymin <= ymax]. *)
Theorem transform_ext_rc_well_formed (e : RowColumnExtent) (affine : GeoAffine) :
  0 < xres affine -> yres affine < 0 ->
  rot1 affine == 0 -> rot2 affine == 0 ->
  in_range (st_row e) -> in_range (st_col e) ->
  in_range (end_row e) -> in_range (end_col e) ->
  (st_row e <= end_row e)%Z -> (st_col e <= end_col e)%Z ->
  exists g : GeoExtent,
    transform_ext (OfRowColumnExtent e) affine = Ok (OfGeoExtent g) /\
    xmin g <= xmax g /\ ymin g <= ymax g.
Proof.
  intros Hx Hy Hr1 Hr2 _ _ _ _ Hrow Hcol.
  eexists. split; [ reflexivity | ].
  unfold transform_rc. cbv zeta. cbn [xmin ymax xmax ymin x y row column].
  rewrite Hr1, Hr2. rewrite Zle_Qle in Hrow, Hcol.
  split.
  - assert (M : inject_Z (st_col e) * xres affine
                <= inject_Z (end_col e) * xres affine)
      by (apply Qmult_le_compat_r; lra).
    lra.
  - assert (M : inject_Z (end_row e) * yres affine
                <= inject_Z (st_row e) * yres affine).
    { setoid_replace (inject_Z (end_row e) * yres affine)
        with (- (inject_Z (end_row e) * - yres affine)) by ring.
      setoid_replace (inject_Z (st_row e) * yres affine)
        with (- (inject_Z (st_row e) * - yres affine)) by ring.
      apply Qopp_le_compat. apply Qmult_le_compat_r; lra. }
    lra.
Qed.

Lemma transform_ext_rc_well_formed_witness :
  exists g : GeoExtent,
    transform_ext (OfRowColumnExtent (mkRowColumnExtent 0 0 5000 5000))
                  (mkGeoAffine (-1815585) 30 0 3014805 0 (-30))
    = Ok (OfGeoExtent g) /\
    xmin g <= xmax g /\ ymin g <= ymax g.
Proof.
  apply (transform_ext_rc_well_formed
           (mkRowColumnExtent 0 0 5000 5000)
           (mkGeoAffine (-1815585) 30 0 3014805 0 (-30)));
    unfold in_range;
    cbn [xres yres rot1 rot2 st_row st_col end_row end_col];
    try reflexivity; try lia; intros H; discriminate H.
Defined.

(** X3.  Under an affine of whole numbers with non-zero pixel sizes and no
    rotation, a RowColumnExtent with rows and columns in range, sent to
    geographic space and back by [transform_ext], comes back unchanged. *)
Theorem transform_ext_round_trip (e : RowColumnExtent) (affine : GeoAffine) :
  whole_affine affine ->
  in_range (st_row e) -> in_range (st_col e) ->
  in_range (end_row e) -> in_range (end_col e) ->
  ~ xres affine == 0 -> ~ yres affine == 0 ->
  rot1 affine == 0 -> rot2 affine == 0 ->
  (g <- transform_ext (OfRowColumnExtent e) affine ;; transform_ext g affine)
  = Ok (OfRowColumnExtent e).
Proof.
  intros _ _ _ _ _ Hx Hy Hr1 Hr2.
  destruct e as [r1 c1 r2 c2].
  pose proof (transform_rc_geo_unrotated (mkRowColumn r1 c1) affine
                Hx Hy Hr1 Hr2) as E1.
  pose proof (transform_rc_geo_unrotated (mkRowColumn r2 c2) affine
                Hx Hy Hr1 Hr2) as E2.
  unfold transform_rc in E1, E2. cbv zeta in E1, E2.
  unfold transform_ext, split_extent, transform_rc. cbv zeta.
  cbn [bind st_row st_col end_row end_col xmin ymax xmax ymin x y row column]
    in *.
  rewrite E1. cbn [bind]. rewrite E2. reflexivity.
Qed.

Lemma transform_ext_round_trip_witness :
  (g <- transform_ext (OfRowColumnExtent (mkRowColumnExtent 0 0 5000 5000))
                      (mkGeoAffine (-1815585) 30 0 3014805 0 (-30)) ;;
   transform_ext g (mkGeoAffine (-1815585) 30 0 3014805 0 (-30)))
  = Ok (OfRowColumnExtent (mkRowColumnExtent 0 0 5000 5000)).
Proof.
  apply (transform_ext_round_trip (mkRowColumnExtent 0 0 5000 5000)
           (mkGeoAffine (-1815585) 30 0 3014805 0 (-30)));
    unfold whole_affine, whole, bounded, in_range;
    cbn [ulx xres rot1 uly rot2 yres st_row st_col end_row end_col];
    repeat split; try reflexivity; try lia; intros H; discriminate H.
Defined.

(** ** Pixels, chips and tiles that contain a coordinate *)

Lemma int_div_cell_pos (d s : Q) :
  0 < s -> 0 <= d ->
  (0 <= int (d / s)%Q)%Z /\
  inject_Z (int (d / s)) * s <= d < inject_Z (int (d / s)) * s + s.
Proof.
  intros Hs Hd.
  assert (Hq : 0 <= d / s).
  { apply Qle_shift_div_l; [ exact Hs | lra ]. }
  destruct (int_nonneg_bounds (d / s) Hq) as [Hlo Hhi].
  assert (E : d / s * s == d) by (field; lra).
  split.
  - rewrite (int_nonneg _ Hq).
    change 0%Z with (Qfloor 0). apply Qfloor_resp_le. exact Hq.
  - split.
    + rewrite <- E at 2. apply Qmult_le_compat_r; lra.
    + rewrite <- E at 1.
      setoid_replace (inject_Z (int (d / s)) * s + s)
        with ((inject_Z (int (d / s)) + 1) * s) by ring.
      apply Qmult_lt_compat_r; lra.
Qed.

Lemma int_div_cell_neg (d s : Q) :
  s < 0 -> d <= 0 ->
  (0 <= int (d / s)%Q)%Z /\
  inject_Z (int (d / s)) * s + s < d <= inject_Z (int (d / s)) * s.
Proof.
  intros Hs Hd.
  assert (E : d / s == (- d) / (- s)) by (field; lra).
  rewrite (int_comp _ _ E).
  destruct (int_div_cell_pos (- d) (- s)) as (H0 & H1 & H2); try lra.
  split; [ exact H0 | ]. lra.
Qed.

(** X4.  Under a north-up affine of whole numbers (positive x pixel size,
    negative y pixel size, no rotation) a coordinate of whole numbers at
    or right of the origin's x and at or below its y falls in the pixel
    that [transform_geo] returns: row and
    column are not negative, and the pixel's upper left [(px, py)] as
    [transform_rc] gives it satisfies [px <= x < px + xres] and
    [py + yres < y <= py]. *)
Theorem transform_geo_pixel_contains (coord : GeoCoordinate) (affine : GeoAffine) :
  whole_coordinate coord -> whole_affine affine ->
  0 < xres affine -> yres affine < 0 ->
  rot1 affine == 0 -> rot2 affine == 0 ->
  ulx affine <= x coord -> y coord <= uly affine ->
  exists rc,
    transform_geo coord affine = Ok rc /\
    (0 <= row rc)%Z /\ (0 <= column rc)%Z /\
    x (transform_rc rc affine) <= x coord
      < x (transform_rc rc affine) + xres affine /\
    y (transform_rc rc affine) + yres affine < y coord
      <= y (transform_rc rc affine).
Proof.
  intros _ _ Hx Hy Hr1 Hr2 Hox Hoy.
  eexists. split.
  { apply transform_geo_ok; lra. }
  set (A := (x coord - ulx affine - uly affine * rot1 affine) / xres affine).
  set (B := (y coord - uly affine - ulx affine * rot2 affine) / yres affine).
  assert (EA : A == (x coord - ulx affine) / xres affine).
  { unfold A. rewrite Hr1. apply Qdiv_comp; [ ring | reflexivity ]. }
  assert (EB : B == (y coord - uly affine) / yres affine).
  { unfold B. rewrite Hr2. apply Qdiv_comp; [ ring | reflexivity ]. }
  rewrite (int_comp _ _ EA), (int_comp _ _ EB).
  destruct (int_div_cell_pos (x coord - ulx affine) (xres affine))
    as (C0 & C1 & C2); try lra.
  destruct (int_div_cell_neg (y coord - uly affine) (yres affine))
    as (R0 & R1 & R2); try lra.
  unfold transform_rc. cbv zeta. cbn [x y row column].
  rewrite Hr1, Hr2.
  repeat split; try assumption; lra.
Qed.

Lemma transform_geo_pixel_contains_witness :
  exists rc,
    transform_geo (mkGeoCoordinate (-1767039) 2940090)
                  (mkGeoAffine (-1815585) 30 0 3014805 0 (-30)) = Ok rc /\
    (0 <= row rc)%Z /\ (0 <= column rc)%Z /\
    x (transform_rc rc (mkGeoAffine (-1815585) 30 0 3014805 0 (-30)))
      <= -1767039
      < x (transform_rc rc (mkGeoAffine (-1815585) 30 0 3014805 0 (-30))) + 30 /\
    y (transform_rc rc (mkGeoAffine (-1815585) 30 0 3014805 0 (-30))) + -30
      < 2940090
      <= y (transform_rc rc (mkGeoAffine (-1815585) 30 0 3014805 0 (-30))).
Proof.
  apply (transform_geo_pixel_contains
           (mkGeoCoordinate (-1767039) 2940090)
           (mkGeoAffine (-1815585) 30 0 3014805 0 (-30)));
    unfold whole_coordinate, whole_affine, whole, bounded;
    cbn [x y ulx uly xres yres rot1 rot2];
    repeat split; try reflexivity; intros H; discriminate H.
Defined.

(** X5.  Snapping is idempotent: under an affine of whole numbers with
    non-zero pixel sizes and no rotation, [chipul] applied to its own
    result returns that result again, for every coordinate of magnitude at
    most [2^25], whole or fractional. *)
Theorem chipul_idempotent (coord : GeoCoordinate) (aff : GeoAffine) :
  bounded (x coord) -> bounded (y coord) -> whole_affine aff ->
  ~ xres aff == 0 -> ~ yres aff == 0 ->
  rot1 aff == 0 -> rot2 aff == 0 ->
  (ul <- chipul coord aff ;; chipul ul aff) = chipul coord aff.
Proof.
  intros _ _ _ Hx Hy Hr1 Hr2. unfold chipul.
  rewrite (transform_geo_ok coord aff Hx Hy). cbn [bind].
  now rewrite (transform_rc_geo_unrotated _ aff Hx Hy Hr1 Hr2).
Qed.

Lemma chipul_idempotent_witness :
  (ul <- chipul (mkGeoCoordinate (-1767039) 2940090) ARDCONUS_CHIPAFF ;;
   chipul ul ARDCONUS_CHIPAFF)
  = chipul (mkGeoCoordinate (-1767039) 2940090) ARDCONUS_CHIPAFF.
Proof.
  apply (chipul_idempotent (mkGeoCoordinate (-1767039) 2940090)
                           ARDCONUS_CHIPAFF);
    unfold whole_affine, whole, bounded;
    cbn [x y ulx xres rot1 uly rot2 yres ARDCONUS_CHIPAFF ARDCONUS_EXT
         xmin ymax];
    repeat split; try reflexivity; intros H; discriminate H.
Defined.

(** X6.  For a coordinate of whole numbers at or right of the reference
    extent's [xmin] and at or below its [ymax], both whole numbers,
    [determine_hv] with the extent's tile affine
    returns the address [(h, v)], neither negative, of the tile that
    contains it: the extent of [ard_hv(h, v)] satisfies
    [xmin <= x < xmax] and [ymin < y <= ymax]. *)
Theorem determine_hv_containing_tile (ref : GeoExtent) (coord : GeoCoordinate) :
  whole_coordinate coord -> whole (xmin ref) -> whole (ymax ref) ->
  xmin ref <= x coord -> y coord <= ymax ref ->
  exists h v : Z,
    determine_hv coord (tile_affine ref) = Ok (h, v) /\
    (0 <= h)%Z /\ (0 <= v)%Z /\
    xmin (fst (ard_hv h v ref)) <= x coord < xmax (fst (ard_hv h v ref)) /\
    ymin (fst (ard_hv h v ref)) < y coord <= ymax (fst (ard_hv h v ref)).
Proof.
  intros _ _ _ Hx Hy.
  eexists. eexists. split; [ apply determine_hv_tile | ].
  assert (EA : (x coord - xmin ref - ymax ref * 0) / 150000
               == (x coord - xmin ref) / 150000).
  { apply Qdiv_comp; [ ring | reflexivity ]. }
  assert (EB : (y coord - ymax ref - xmin ref * 0) / -150000
               == (y coord - ymax ref) / -150000).
  { apply Qdiv_comp; [ ring | reflexivity ]. }
  rewrite (int_comp _ _ EA), (int_comp _ _ EB).
  destruct (int_div_cell_pos (x coord - xmin ref) 150000)
    as (C0 & C1 & C2); try lra.
  destruct (int_div_cell_neg (y coord - ymax ref) (-150000))
    as (R0 & R1 & R2); try lra.
  unfold ard_hv. cbv zeta. cbn [fst xmin ymax xmax ymin].
  set (h := int ((x coord - xmin ref) / 150000)) in *.
  set (v := int ((y coord - ymax ref) / -150000)) in *.
  pose proof (tile_side h) as Hh. pose proof (tile_side v) as Hv.
  change (inject_Z (5000 * 30)) with 150000.
  rewrite Hh, Hv.
  repeat split; try assumption; lra.
Qed.

Lemma determine_hv_containing_tile_witness :
  exists h v : Z,
    determine_hv (mkGeoCoordinate (-1767039) 2940090) (tile_affine ARDCONUS_EXT)
    = Ok (h, v) /\
    (0 <= h)%Z /\ (0 <= v)%Z /\
    xmin (fst (ard_hv h v ARDCONUS_EXT)) <= -1767039
      < xmax (fst (ard_hv h v ARDCONUS_EXT)) /\
    ymin (fst (ard_hv h v ARDCONUS_EXT)) < 2940090
      <= ymax (fst (ard_hv h v ARDCONUS_EXT)).
Proof.
  apply (determine_hv_containing_tile ARDCONUS_EXT
           (mkGeoCoordinate (-1767039) 2940090));
    unfold whole_coordinate, whole, bounded;
    cbn [x y xmin ymax ARDCONUS_EXT];
    repeat split; try reflexivity; intros H; discriminate H.
Defined.

(** ** Tiles of ard_hv *)

(** X7.  The tiles of [ard_hv] lie edge to edge: the [xmax] of tile
    [(h, v)] is the [xmin] of tile [(h+1, v)], its [ymin] is the [ymax] of
    tile [(h, v+1)], and the tiles of a row share [ymax] and [ymin] as the
    tiles of a column share [xmin] and [xmax]. *)
Theorem ard_hv_tiles_adjacent (h v h' v' : Z) (ref : GeoExtent) :
  xmax (fst (ard_hv h v ref)) == xmin (fst (ard_hv (h + 1) v' ref)) /\
  ymin (fst (ard_hv h v ref)) == ymax (fst (ard_hv h' (v + 1) ref)) /\
  ymax (fst (ard_hv h v ref)) == ymax (fst (ard_hv h' v ref)) /\
  ymin (fst (ard_hv h v ref)) == ymin (fst (ard_hv h' v ref)) /\
  xmin (fst (ard_hv h v ref)) == xmin (fst (ard_hv h v' ref)) /\
  xmax (fst (ard_hv h v ref)) == xmax (fst (ard_hv h v' ref)).
Proof.
  unfold ard_hv. cbv zeta. cbn [fst xmin ymax xmax ymin].
  pose proof (tile_side h) as Hh. pose proof (tile_side v) as Hv.
  pose proof (tile_side (h + 1)) as Hh1. pose proof (tile_side (v + 1)) as Hv1.
  rewrite inject_Z_plus in Hh1, Hv1.
  change (inject_Z 1) with 1 in Hh1, Hv1.
  change (inject_Z (5000 * 30)) with 150000.
  repeat split; try reflexivity.
  - rewrite Hh, Hh1. ring.
  - rewrite Hv, Hv1. ring.
Qed.

(** X8.  Under the 30-unit affine that [ard_hv] returns with a tile, the
    tile's extent is the pixel window from row 0, column 0 to row 5000,
    column 5000, for every tile and every reference extent. *)
Theorem ard_hv_pixel_window (h v : Z) (ref : GeoExtent) :
  transform_ext (OfGeoExtent (fst (ard_hv h v ref))) (snd (ard_hv h v ref))
  = Ok (OfRowColumnExtent (mkRowColumnExtent 0 0 5000 5000)).
Proof.
  unfold transform_ext, split_extent. cbn [bind].
  rewrite !transform_geo_ok;
    try (unfold ard_hv; cbv zeta; cbn [snd xres yres];
         intros H; discriminate H).
  cbn [bind row column]. unfold ard_hv. cbv zeta.
  cbn [fst snd xmin ymax xmax ymin x y ulx uly xres yres rot1 rot2].
  change (inject_Z (5000 * 30)) with 150000.
  assert (Hint : forall (z : Z) (a : Q), a == inject_Z z -> int a = z).
  { intros z a E. rewrite (int_comp _ _ E). apply int_inject_Z. }
  f_equal. f_equal. f_equal; apply Hint.
  - change (inject_Z 0) with 0. field.
  - change (inject_Z 0) with 0. field.
  - change (inject_Z 5000) with 5000. field.
  - change (inject_Z 5000) with 5000. field.
Qed.

(** ** create *)

(** X9.  [create] raises for no point: the default tile affine has
    non-zero pixel sizes, so the tile address is always computed and the
    call returns [None]. *)
Theorem create_never_raises (px py : Num) (acquired : string) :
  create px py acquired = Ok tt.
Proof.
  unfold create. rewrite ARDCONUS_TILEAFF_tile_affine, determine_hv_tile.
  reflexivity.
Qed.

(** ** fifteen_offset on the 30-unit grid *)

Lemma fifteen_offset_value (val : Num) :
  fifteen_offset val = Ok (Qfloor (val / 30) * 30 + 15)%Z.
Proof.
  unfold fifteen_offset, floordiv.
  change (Qeq_bool 30 0) with false. cbn [bind].
  now rewrite int_inject_Z.
Qed.

Lemma Qfloor_unique (z : Z) (a : Q) :
  inject_Z z <= a < inject_Z z + 1 -> Qfloor a = z.
Proof.
  intros [Hlo Hhi].
  assert (H1 : (z <= Qfloor a)%Z).
  { rewrite <- (Qfloor_Z z). now apply Qfloor_resp_le. }
  assert (H2 : (Qfloor a < z + 1)%Z).
  { rewrite Zlt_Qlt, inject_Z_plus. change (inject_Z 1) with 1.
    pose proof (Qfloor_le a). lra. }
  lia.
Qed.

(** X10.  [fifteen_offset] is idempotent: a value already aligned stays
    where it is. *)
Theorem fifteen_offset_idempotent (val : Num) :
  (r <- fifteen_offset val ;; fifteen_offset (inject_Z r))
  = fifteen_offset val.
Proof.
  rewrite (fifteen_offset_value val). cbn [bind].
  rewrite fifteen_offset_value. do 2 f_equal. f_equal.
  set (k := Qfloor (val / 30)).
  apply Qfloor_unique.
  assert (E : inject_Z (k * 30 + 15) / 30 == inject_Z k + (1 # 2)).
  { rewrite inject_Z_plus, inject_Z_mult.
    change (inject_Z 30) with 30. change (inject_Z 15) with 15. field. }
  rewrite E. lra.
Qed.

(** X11.  [fifteen_offset] is monotone: a greater value is never aligned
    below a smaller one. *)
Theorem fifteen_offset_monotone (val val' : Num) :
  val <= val' ->
  exists r r' : Z,
    fifteen_offset val = Ok r /\ fifteen_offset val' = Ok r' /\ (r <= r')%Z.
Proof.
  intros Hle.
  exists (Qfloor (val / 30) * 30 + 15)%Z, (Qfloor (val' / 30) * 30 + 15)%Z.
  split; [ apply fifteen_offset_value | ].
  split; [ apply fifteen_offset_value | ].
  assert (H : (Qfloor (val / 30) <= Qfloor (val' / 30))%Z).
  { apply Qfloor_resp_le.
    assert (E : val / 30 == val * (1 # 30)) by field.
    assert (E' : val' / 30 == val' * (1 # 30)) by field.
    rewrite E, E'. lra. }
  lia.
Qed.

Lemma fifteen_offset_monotone_witness :
  exists r r' : Z,
    fifteen_offset (-1) = Ok r /\ fifteen_offset (1 # 10) = Ok r' /\
    (r <= r')%Z.
Proof.
  apply (fifteen_offset_monotone (-1) (1 # 10)).
  intros H; discriminate H.
Defined.

(** X12.  [fifteen_offset] follows the 30-unit grid: a value moved by one
    grid step of 30 is aligned 30 further. *)
Theorem fifteen_offset_step (val : Num) :
  fifteen_offset (val + 30)
  = (r <- fifteen_offset val ;; Ok (r + 30)%Z).
Proof.
  rewrite !fifteen_offset_value. cbn [bind]. f_equal.
  set (k := Qfloor (val / 30)).
  assert (Hk : Qfloor ((val + 30) / 30) = (k + 1)%Z).
  { apply Qfloor_unique.
    assert (E : (val + 30) / 30 == val / 30 + 1) by field.
    rewrite E, inject_Z_plus. change (inject_Z 1) with 1.
    pose proof (Qfloor_le (val / 30)) as Hlo.
    pose proof (Qlt_floor (val / 30)) as Hhi.
    rewrite inject_Z_plus in Hhi. change (inject_Z 1) with 1 in Hhi.
    fold k in Hlo, Hhi. lra. }
  rewrite Hk. lia.
Qed.

(** ** The raster source: failures and what is read *)

Section RasterProperties.

Context {ndarray : Type}.
Variable gdal_Open : string -> access -> result (Dataset ndarray).

Lemma extract_geoextent_ok (path : string) (geo_extent : GeoExtent) (band : Z)
      (ds : Dataset ndarray) (ul lr : RowColumn) :
  gdal_Open path GA_ReadOnly = Ok ds ->
  transform_geo (mkGeoCoordinate (xmin geo_extent) (ymax geo_extent))
                (GetGeoTransform ds) = Ok ul ->
  transform_geo (mkGeoCoordinate (xmax geo_extent) (ymin geo_extent))
                (GetGeoTransform ds) = Ok lr ->
  extract_geoextent gdal_Open path geo_extent band =
  (b <- GetRasterBand ds band ;;
   ReadAsArray b (column ul) (row ul)
               (column lr - column ul)%Z (row lr - row ul)%Z).
Proof.
  intros Hopen Hul Hlr.
  unfold extract_geoextent, raster_affine, open_raster.
  rewrite Hopen. cbn [bind].
  unfold transform_ext, split_extent. cbn [bind].
  rewrite Hul. cbn [bind]. rewrite Hlr. cbn [bind].
  unfold extract_rcextent, open_raster, split_extent.
  rewrite Hopen. reflexivity.
Qed.

(** X13.  A raster that cannot be opened fails every query the same way:
    [raster_affine], [raster_extent], [extract_rcextent],
    [extract_geoextent] and [extract_chip] all raise the exception of the
    open, and nothing is read. *)
Theorem raster_open_failure (path : string) (e : exn)
        (rc_extent : RowColumnExtent) (geo_extent : GeoExtent)
        (coord : GeoCoordinate) (band : Z) :
  gdal_Open path GA_ReadOnly = Raise e ->
  raster_affine gdal_Open path = Raise e /\
  raster_extent gdal_Open path = Raise e /\
  extract_rcextent gdal_Open path rc_extent band = Raise e /\
  extract_geoextent gdal_Open path geo_extent band = Raise e /\
  extract_chip gdal_Open path coord band = Raise e.
Proof.
  intros Hopen.
  assert (Haff : raster_affine gdal_Open path = Raise e).
  { unfold raster_affine, open_raster. now rewrite Hopen. }
  assert (Hgeo : forall g, extract_geoextent gdal_Open path g band = Raise e).
  { intros g. unfold extract_geoextent. now rewrite Haff. }
  repeat split.
  - exact Haff.
  - unfold raster_extent, open_raster. now rewrite Hopen.
  - unfold extract_rcextent, open_raster. now rewrite Hopen.
  - apply Hgeo.
  - unfold extract_chip, chipul.
    rewrite transform_geo_ok;
      [ | cbn [xres ARDCONUS_CHIPAFF]; intros H; discriminate H
        | cbn [yres ARDCONUS_CHIPAFF]; intros H; discriminate H ].
    cbn [bind]. apply Hgeo.
Qed.

(** X14.  On a raster whose geotransform has a zero pixel size,
    [extract_geoextent] raises [ZeroDivisionError] for every extent and
    band, before any band is asked for. *)
Theorem extract_geoextent_zero_pixel_size (path : string)
        (ds : Dataset ndarray) (geo_extent : GeoExtent) (band : Z) :
  gdal_Open path GA_ReadOnly = Ok ds ->
  xres (GetGeoTransform ds) == 0 \/ yres (GetGeoTransform ds) == 0 ->
  extract_geoextent gdal_Open path geo_extent band = Raise ZeroDivisionError.
Proof.
  intros Hopen Hzero.
  unfold extract_geoextent, raster_affine, open_raster.
  rewrite Hopen. cbn [bind].
  unfold transform_ext, split_extent. cbn [bind].
  now rewrite (transform_geo_raises _ _ Hzero).
Qed.

(** X15.  When the raster has no such band, [extract_geoextent] and
    [extract_rcextent] raise what [GetRasterBand] raises. *)
Theorem extract_band_failure (path : string) (ds : Dataset ndarray)
        (geo_extent : GeoExtent) (rc_extent : RowColumnExtent)
        (band : Z) (e : exn) :
  gdal_Open path GA_ReadOnly = Ok ds ->
  ~ xres (GetGeoTransform ds) == 0 -> ~ yres (GetGeoTransform ds) == 0 ->
  GetRasterBand ds band = Raise e ->
  extract_geoextent gdal_Open path geo_extent band = Raise e /\
  extract_rcextent gdal_Open path rc_extent band = Raise e.
Proof.
  intros Hopen Hx Hy Hband. split.
  - rewrite (extract_geoextent_ok path geo_extent band ds _ _ Hopen
               (transform_geo_ok _ _ Hx Hy) (transform_geo_ok _ _ Hx Hy)).
    now rewrite Hband.
  - unfold extract_rcextent, open_raster, split_extent.
    rewrite Hopen. cbn [bind]. now rewrite Hband.
Qed.

(** The extent of [raster_extent] has the geotransform's origin as
    its upper left and the image of the pixel
    [(RasterYSize, RasterXSize)] as its lower right:
    [xmax = ulx + RasterXSize*xres + RasterYSize*rot1] and
    [ymin = uly + RasterXSize*rot2 + RasterYSize*yres]. *)
Lemma raster_extent_corners (path : string) (ds : Dataset ndarray) :
  gdal_Open path GA_ReadOnly = Ok ds ->
  exists g : GeoExtent,
    raster_extent gdal_Open path = Ok g /\
    xmin g = ulx (GetGeoTransform ds) /\
    ymax g = uly (GetGeoTransform ds) /\
    xmax g == ulx (GetGeoTransform ds)
              + inject_Z (RasterXSize ds) * xres (GetGeoTransform ds)
              + inject_Z (RasterYSize ds) * rot1 (GetGeoTransform ds) /\
    ymin g == uly (GetGeoTransform ds)
              + inject_Z (RasterXSize ds) * rot2 (GetGeoTransform ds)
              + inject_Z (RasterYSize ds) * yres (GetGeoTransform ds).
Proof.
  intros Hopen. eexists. split.
  - unfold raster_extent, raster_affine, open_raster.
    rewrite Hopen. cbn [bind]. reflexivity.
  - unfold transform_rc. cbv zeta.
    cbn [xmin ymax xmax ymin x y row column].
    repeat split; reflexivity.
Qed.

(** X16.  On a raster whose geotransform is made of whole numbers, with
    non-zero pixel sizes and no rotation, and whose sizes are in range,
    the extent of [raster_extent] given to [extract_geoextent] reads the
    whole raster: the window starts at column 0, row 0 and is
    [RasterXSize] wide and [RasterYSize] high. *)
Theorem extract_raster_extent_reads_all (path : string)
        (ds : Dataset ndarray) (b : Band ndarray) (band : Z) :
  gdal_Open path GA_ReadOnly = Ok ds ->
  whole_affine (GetGeoTransform ds) ->
  in_range (RasterXSize ds) -> in_range (RasterYSize ds) ->
  ~ xres (GetGeoTransform ds) == 0 -> ~ yres (GetGeoTransform ds) == 0 ->
  rot1 (GetGeoTransform ds) == 0 -> rot2 (GetGeoTransform ds) == 0 ->
  GetRasterBand ds band = Ok b ->
  (g <- raster_extent gdal_Open path ;;
   extract_geoextent gdal_Open path g band)
  = ReadAsArray b 0 0 (RasterXSize ds) (RasterYSize ds).
Proof.
  intros Hopen _ _ _ Hx Hy Hr1 Hr2 Hband.
  unfold raster_extent, raster_affine, open_raster.
  rewrite Hopen. cbn [bind].
  set (aff := GetGeoTransform ds) in *.
  pose proof (transform_rc_geo_unrotated
                (mkRowColumn (RasterYSize ds) (RasterXSize ds)) aff
                Hx Hy Hr1 Hr2) as Elr.
  assert (Eul : transform_geo (mkGeoCoordinate (ulx aff) (uly aff)) aff
                = Ok (mkRowColumn 0 0)).
  { rewrite (transform_geo_ok _ _ Hx Hy). cbn [x y].
    assert (Hint : forall a : Q, a == 0 -> int a = 0%Z).
    { intros a E. rewrite (int_comp _ _ E). reflexivity. }
    f_equal. f_equal; apply Hint; rewrite ?Hr1, ?Hr2; field; assumption. }
  unfold transform_rc in Elr. cbv zeta in Elr. cbn [row column] in Elr.
  rewrite (extract_geoextent_ok path _ band ds
             (mkRowColumn 0 0)
             (mkRowColumn (RasterYSize ds) (RasterXSize ds)) Hopen).
  - rewrite Hband. cbn [bind row column].
    now rewrite !Z.sub_0_r.
  - cbn [xmin ymax]. exact Eul.
  - unfold transform_rc. cbv zeta. cbn [xmax ymin x y row column].
    exact Elr.
Qed.

End RasterProperties.

Lemma int_of_integer (z : Z) (a : Q) : a == inject_Z z -> int a = z.
Proof. intros E. rewrite (int_comp _ _ E). apply int_inject_Z. Qed.

Lemma inject_Z_sub (a b : Z) : inject_Z (a - b) = inject_Z a - inject_Z b.
Proof.
  unfold Z.sub, Qminus. now rewrite inject_Z_plus, inject_Z_opp.
Qed.

Section ChipOnTile.

Context {ndarray : Type}.
Variable gdal_Open : string -> access -> result (Dataset ndarray).

(** X17.  On the raster of an ARD tile (its geotransform the affine of
    [ard_hv(h, v)] on the continental reference, [h] and [v] in range)
    [extract_chip] reads, for every coordinate of whole numbers, a window
    of exactly 100 by 100 pixels whose offsets
    are multiples of 100: with [(row, column)] the chip of the coordinate
    under [ARDCONUS_CHIPAFF], the window starts at column
    [100*(column - 50*h)] and row [100*(row - 50*v)].  For a coordinate
    inside the tile, [h] and [v] not negative, both offsets lie between 0
    and 4900: the window is within the tile's 5000 by 5000 pixels. *)
Theorem extract_chip_tile_window (path : string) (ds : Dataset ndarray)
        (b : Band ndarray) (band h v : Z) (coord : GeoCoordinate) :
  gdal_Open path GA_ReadOnly = Ok ds ->
  GetGeoTransform ds = snd (ard_hv h v ARDCONUS_EXT) ->
  GetRasterBand ds band = Ok b ->
  in_range h -> in_range v -> whole_coordinate coord ->
  exists rc : RowColumn,
    transform_geo coord ARDCONUS_CHIPAFF = Ok rc /\
    extract_chip gdal_Open path coord band =
    ReadAsArray b (100 * (column rc - 50 * h))%Z (100 * (row rc - 50 * v))%Z
                100 100 /\
    ((0 <= h)%Z -> (0 <= v)%Z ->
     xmin (fst (ard_hv h v ARDCONUS_EXT)) <= x coord
       < xmax (fst (ard_hv h v ARDCONUS_EXT)) ->
     ymin (fst (ard_hv h v ARDCONUS_EXT)) < y coord
       <= ymax (fst (ard_hv h v ARDCONUS_EXT)) ->
     (0 <= 100 * (column rc - 50 * h) <= 4900)%Z /\
     (0 <= 100 * (row rc - 50 * v) <= 4900)%Z).
Proof.
  intros Hopen Haff Hband _ _ _.
  assert (Hcx : ~ xres ARDCONUS_CHIPAFF == 0)
    by (cbn [xres ARDCONUS_CHIPAFF]; intros H; discriminate H).
  assert (Hcy : ~ yres ARDCONUS_CHIPAFF == 0)
    by (cbn [yres ARDCONUS_CHIPAFF]; intros H; discriminate H).
  assert (Htx : ~ xres (GetGeoTransform ds) == 0)
    by (rewrite Haff; unfold ard_hv; cbv zeta; cbn [snd xres];
        intros H; discriminate H).
  assert (Hty : ~ yres (GetGeoTransform ds) == 0)
    by (rewrite Haff; unfold ard_hv; cbv zeta; cbn [snd yres];
        intros H; discriminate H).
  eexists. split; [ apply (transform_geo_ok coord _ Hcx Hcy) | ].
  cbn [row column].
  cbn [ARDCONUS_CHIPAFF ARDCONUS_EXT xmin ymax ulx uly xres yres rot1 rot2].
  set (c := int ((x coord - -2565585 - 3314805 * 0) / 3000)).
  set (r := int ((y coord - 3314805 - -2565585 * 0) / -3000)).
  pose proof (tile_side h) as Hh. pose proof (tile_side v) as Hv.
  split.
  - unfold extract_chip, chipul.
    rewrite (transform_geo_ok coord _ Hcx Hcy). cbn [bind].
    cbn [ARDCONUS_CHIPAFF ARDCONUS_EXT xmin ymax ulx uly xres yres rot1 rot2].
    fold c. fold r.
    unfold transform_rc. cbv zeta.
    cbn [x y row column ulx uly xres yres rot1 rot2 xmin ymax
         ARDCONUS_CHIPAFF ARDCONUS_EXT].
    rewrite (extract_geoextent_ok gdal_Open path _ band ds
               (mkRowColumn (100 * (r - 50 * v)) (100 * (c - 50 * h)))
               (mkRowColumn (100 * (r - 50 * v) + 100)
                            (100 * (c - 50 * h) + 100)) Hopen).
    + rewrite Hband. cbn [bind row column]. f_equal; lia.
    + rewrite (transform_geo_ok _ _ Htx Hty). rewrite Haff.
      unfold ard_hv. cbv zeta.
      cbn [snd fst xmin ymax x y ulx uly xres yres rot1 rot2 ARDCONUS_EXT].
      f_equal. f_equal; apply int_of_integer.
      * rewrite Hh, Hv, inject_Z_mult, inject_Z_sub, inject_Z_mult.
        change (inject_Z 100) with 100. change (inject_Z 50) with 50. field.
      * rewrite Hh, Hv, inject_Z_mult, inject_Z_sub, inject_Z_mult.
        change (inject_Z 100) with 100. change (inject_Z 50) with 50. field.
    + rewrite (transform_geo_ok _ _ Htx Hty). rewrite Haff.
      unfold ard_hv. cbv zeta.
      cbn [snd fst xmin ymax xmax ymin x y ulx uly xres yres rot1 rot2
           ARDCONUS_EXT].
      f_equal. f_equal; apply int_of_integer.
      * rewrite Hh, Hv, inject_Z_plus, inject_Z_mult, inject_Z_sub,
          inject_Z_mult.
        change (inject_Z 100) with 100. change (inject_Z 50) with 50. field.
      * rewrite Hh, Hv, inject_Z_plus, inject_Z_mult, inject_Z_sub,
          inject_Z_mult.
        change (inject_Z 100) with 100. change (inject_Z 50) with 50. field.
  - intros Hh0 Hv0. unfold ard_hv. cbv zeta.
    cbn [fst xmin ymax xmax ymin ARDCONUS_EXT].
    change (inject_Z (5000 * 30)) with 150000. rewrite Hh, Hv.
    intros [X1 X2] [Y1 Y2].
    assert (Qh : 0 <= inject_Z h) by (change 0 with (inject_Z 0);
                                      now rewrite <- Zle_Qle).
    assert (Qv : 0 <= inject_Z v) by (change 0 with (inject_Z 0);
                                      now rewrite <- Zle_Qle).
    assert (EA : (x coord - -2565585 - 3314805 * 0) / 3000
                 == (x coord + 2565585) / 3000)
      by (apply Qdiv_comp; [ ring | reflexivity ]).
    assert (EB : (y coord - 3314805 - -2565585 * 0) / -3000
                 == (y coord - 3314805) / -3000)
      by (apply Qdiv_comp; [ ring | reflexivity ]).
    destruct (int_div_cell_pos (x coord + 2565585) 3000)
      as (_ & C1 & C2); try lra.
    destruct (int_div_cell_neg (y coord - 3314805) (-3000))
      as (_ & R1 & R2); try lra.
    rewrite <- (int_comp _ _ EA) in C1, C2.
    rewrite <- (int_comp _ _ EB) in R1, R2.
    fold c in C1, C2. fold r in R1, R2.
    assert (Hc1 : inject_Z (50 * h) < inject_Z (c + 1)).
    { rewrite inject_Z_plus, inject_Z_mult.
      change (inject_Z 50) with 50. change (inject_Z 1) with 1. lra. }
    assert (Hc2 : inject_Z c < inject_Z (50 * h + 50)).
    { rewrite inject_Z_plus, inject_Z_mult.
      change (inject_Z 50) with 50. lra. }
    assert (Hr1 : inject_Z (50 * v) < inject_Z (r + 1)).
    { rewrite inject_Z_plus, inject_Z_mult.
      change (inject_Z 50) with 50. change (inject_Z 1) with 1. lra. }
    assert (Hr2 : inject_Z r < inject_Z (50 * v + 50)).
    { rewrite inject_Z_plus, inject_Z_mult.
      change (inject_Z 50) with 50. lra. }
    rewrite <- Zlt_Qlt in Hc1, Hc2, Hr1, Hr2. lia.
Qed.

(** X18.  No query opens a raster for update: two sources that answer
    alike when opened read-only give the same results for
    [raster_affine], [raster_extent], [extract_rcextent],
    [extract_geoextent] and [extract_chip]. *)
Theorem queries_open_read_only
        (gdal_Open' : string -> access -> result (Dataset ndarray))
        (path : string) (rc_extent : RowColumnExtent)
        (geo_extent : GeoExtent) (coord : GeoCoordinate) (band : Z) :
  (forall p, gdal_Open p GA_ReadOnly = gdal_Open' p GA_ReadOnly) ->
  raster_affine gdal_Open path = raster_affine gdal_Open' path /\
  raster_extent gdal_Open path = raster_extent gdal_Open' path /\
  extract_rcextent gdal_Open path rc_extent band
    = extract_rcextent gdal_Open' path rc_extent band /\
  extract_geoextent gdal_Open path geo_extent band
    = extract_geoextent gdal_Open' path geo_extent band /\
  extract_chip gdal_Open path coord band
    = extract_chip gdal_Open' path coord band.
Proof.
  intros Hsame.
  unfold extract_chip, extract_geoextent, extract_rcextent, raster_extent,
    raster_affine, open_raster.
  rewrite !Hsame. repeat split; reflexivity.
Qed.

End ChipOnTile.

(** ** Instances of the raster properties *)

Lemma raster_open_failure_witness :
  raster_affine open_missing "raster.tif" = Raise (Exn "RuntimeError") /\
  raster_extent open_missing "raster.tif" = Raise (Exn "RuntimeError") /\
  extract_rcextent open_missing "raster.tif" (mkRowColumnExtent 0 0 2 2) 1
    = Raise (Exn "RuntimeError") /\
  extract_geoextent open_missing "raster.tif" ARDCONUS_EXT 1
    = Raise (Exn "RuntimeError") /\
  extract_chip open_missing "raster.tif" (mkGeoCoordinate 0 0) 1
    = Raise (Exn "RuntimeError").
Proof.
  apply (raster_open_failure open_missing "raster.tif" (Exn "RuntimeError")
           (mkRowColumnExtent 0 0 2 2) ARDCONUS_EXT (mkGeoCoordinate 0 0) 1).
  reflexivity.
Defined.

Lemma extract_geoextent_zero_pixel_size_witness :
  extract_geoextent open_flat "raster.tif" ARDCONUS_EXT 1
  = Raise ZeroDivisionError.
Proof.
  apply (extract_geoextent_zero_pixel_size open_flat "raster.tif"
           (memory_raster (mkGeoAffine 0 0 0 0 0 (-30)) [[1; 2]; [3; 4]]%Z)
           ARDCONUS_EXT 1).
  - reflexivity.
  - left. reflexivity.
Defined.

Lemma extract_band_failure_witness :
  extract_geoextent open_bandless "raster.tif" (mkGeoExtent 0 0 60 (-60)) 1
    = Raise (Exn "RuntimeError") /\
  extract_rcextent open_bandless "raster.tif" (mkRowColumnExtent 0 0 2 2) 1
    = Raise (Exn "RuntimeError").
Proof.
  apply (extract_band_failure open_bandless "raster.tif"
           (mkDataset (mkGeoAffine 0 30 0 0 0 (-30)) 2 2
                      (fun _ => Raise (Exn "RuntimeError")))
           (mkGeoExtent 0 0 60 (-60)) (mkRowColumnExtent 0 0 2 2) 1
           (Exn "RuntimeError"));
    try reflexivity; cbn [GetGeoTransform xres yres]; intros H; discriminate H.
Defined.

Lemma raster_extent_corners_witness :
  exists g : GeoExtent,
    raster_extent open_two_by_two "raster.tif" = Ok g /\
    xmin g = 0 /\ ymax g = 0 /\
    xmax g == 0 + inject_Z 2 * 30 + inject_Z 2 * 0 /\
    ymin g == 0 + inject_Z 2 * 0 + inject_Z 2 * (-30).
Proof.
  apply (raster_extent_corners open_two_by_two "raster.tif" two_by_two).
  reflexivity.
Defined.

Lemma extract_raster_extent_reads_all_witness :
  (g <- raster_extent open_two_by_two "raster.tif" ;;
   extract_geoextent open_two_by_two "raster.tif" g 1)
  = Ok (window [[1; 2]; [3; 4]]%Z 0 0 2 2).
Proof.
  apply (extract_raster_extent_reads_all open_two_by_two "raster.tif"
           two_by_two
           (mkBand (fun xoff yoff xsize ysize =>
                      Ok (window [[1; 2]; [3; 4]]%Z xoff yoff xsize ysize)))
           1);
    unfold whole_affine, whole, bounded, in_range;
    cbn [GetGeoTransform RasterXSize RasterYSize ulx xres rot1 uly rot2 yres
         two_by_two memory_raster];
    repeat split; try reflexivity; try (cbn; lia); intros H; discriminate H.
Defined.

Lemma extract_chip_tile_window_witness :
  exists rc : RowColumn,
    transform_geo (mkGeoCoordinate (-1767039) 2940090) ARDCONUS_CHIPAFF
    = Ok rc /\
    extract_chip open_tile_5_2 "raster.tif"
                 (mkGeoCoordinate (-1767039) 2940090) 1 =
    Ok (window [[1; 2]; [3; 4]]%Z
               (100 * (column rc - 50 * 5)) (100 * (row rc - 50 * 2))
               100 100) /\
    ((0 <= 5)%Z -> (0 <= 2)%Z ->
     xmin (fst (ard_hv 5 2 ARDCONUS_EXT)) <= -1767039
       < xmax (fst (ard_hv 5 2 ARDCONUS_EXT)) ->
     ymin (fst (ard_hv 5 2 ARDCONUS_EXT)) < 2940090
       <= ymax (fst (ard_hv 5 2 ARDCONUS_EXT)) ->
     (0 <= 100 * (column rc - 50 * 5) <= 4900)%Z /\
     (0 <= 100 * (row rc - 50 * 2) <= 4900)%Z).
Proof.
  apply (extract_chip_tile_window open_tile_5_2 "raster.tif"
           (memory_raster (snd (ard_hv 5 2 ARDCONUS_EXT)) [[1; 2]; [3; 4]]%Z)
           (mkBand (fun xoff yoff xsize ysize =>
                      Ok (window [[1; 2]; [3; 4]]%Z xoff yoff xsize ysize)))
           1 5 2 (mkGeoCoordinate (-1767039) 2940090));
    unfold in_range, whole_coordinate, whole, bounded; cbn [x y];
    repeat split; try reflexivity; try lia; intros H; discriminate H.
Defined.

Lemma queries_open_read_only_witness :
  raster_affine open_two_by_two "raster.tif"
    = raster_affine (fun p mode => match mode with
                                   | GA_ReadOnly => open_two_by_two p mode
                                   | GA_Update => open_missing p mode
                                   end) "raster.tif" /\
  raster_extent open_two_by_two "raster.tif"
    = raster_extent (fun p mode => match mode with
                                   | GA_ReadOnly => open_two_by_two p mode
                                   | GA_Update => open_missing p mode
                                   end) "raster.tif" /\
  extract_rcextent open_two_by_two "raster.tif" (mkRowColumnExtent 0 0 2 2) 1
    = extract_rcextent (fun p mode => match mode with
                                      | GA_ReadOnly => open_two_by_two p mode
                                      | GA_Update => open_missing p mode
                                      end)
                       "raster.tif" (mkRowColumnExtent 0 0 2 2) 1 /\
  extract_geoextent open_two_by_two "raster.tif" (mkGeoExtent 0 0 60 (-60)) 1
    = extract_geoextent (fun p mode => match mode with
                                       | GA_ReadOnly => open_two_by_two p mode
                                       | GA_Update => open_missing p mode
                                       end)
                        "raster.tif" (mkGeoExtent 0 0 60 (-60)) 1 /\
  extract_chip open_two_by_two "raster.tif" (mkGeoCoordinate 0 0) 1
    = extract_chip (fun p mode => match mode with
                                  | GA_ReadOnly => open_two_by_two p mode
                                  | GA_Update => open_missing p mode
                                  end)
                   "raster.tif" (mkGeoCoordinate 0 0) 1.
Proof.
  apply (queries_open_read_only open_two_by_two
           (fun p mode => match mode with
                          | GA_ReadOnly => open_two_by_two p mode
                          | GA_Update => open_missing p mode
                          end)
           "raster.tif" (mkRowColumnExtent 0 0 2 2)
           (mkGeoExtent 0 0 60 (-60)) (mkGeoCoordinate 0 0) 1).
  intros p. reflexivity.
Defined.

(** ** Order and distance *)

Lemma int_monotone (a b : Num) : a <= b -> (int a <= int b)%Z.
Proof.
  intros Hab.
  destruct (Qlt_le_dec a 0) as [Ha | Ha]; destruct (Qlt_le_dec b 0) as [Hb | Hb].
  - rewrite (int_nonpos a), (int_nonpos b) by lra.
    now apply Qceiling_resp_le.
  - rewrite (int_nonpos a), (int_nonneg b) by lra.
    assert (H1 : (Qceiling a <= 0)%Z).
    { change 0%Z with (Qceiling 0). apply Qceiling_resp_le. lra. }
    assert (H2 : (0 <= Qfloor b)%Z).
    { change 0%Z with (Qfloor 0). now apply Qfloor_resp_le. }
    lia.
  - lra.
  - rewrite (int_nonneg a), (int_nonneg b) by lra.
    now apply Qfloor_resp_le.
Qed.

Lemma int_near (a : Num) : -1 < a - inject_Z (int a) < 1.
Proof.
  destruct (int_truncates a) as [Hp Hn].
  destruct (Qlt_le_dec a 0) as [Ha | Ha].
  - assert (Ha' : a <= 0) by lra. specialize (Hn Ha').
    rewrite inject_Z_sub in Hn. change (inject_Z 1) with 1 in Hn. lra.
  - specialize (Hp Ha). rewrite inject_Z_plus in Hp.
    change (inject_Z 1) with 1 in Hp. lra.
Qed.

Lemma Qdiv_le_pos (a b s : Q) : 0 < s -> a <= b -> a / s <= b / s.
Proof.
  intros Hs Hab. unfold Qdiv. apply Qmult_le_compat_r; [ exact Hab | ].
  apply Qlt_le_weak, Qinv_lt_0_compat, Hs.
Qed.

Lemma Qdiv_le_neg (a b s : Q) : s < 0 -> a <= b -> b / s <= a / s.
Proof.
  intros Hs Hab.
  assert (Ea : a / s == (- a) / (- s)) by (field; lra).
  assert (Eb : b / s == (- b) / (- s)) by (field; lra).
  rewrite Ea, Eb. apply Qdiv_le_pos; lra.
Qed.

(** X19.  Under an affine with a positive x pixel size and a negative y
    pixel size, columns grow with [x] and rows grow as [y] falls: of two
    coordinates, the one further right is in no earlier column and the one
    further up is in no later row. *)
Theorem transform_geo_monotone (c1 c2 : GeoCoordinate) (affine : GeoAffine) :
  0 < xres affine -> yres affine < 0 ->
  exists rc1 rc2,
    transform_geo c1 affine = Ok rc1 /\
    transform_geo c2 affine = Ok rc2 /\
    (x c1 <= x c2 -> (column rc1 <= column rc2)%Z) /\
    (y c1 <= y c2 -> (row rc2 <= row rc1)%Z).
Proof.
  intros Hx Hy.
  eexists. eexists.
  split; [ apply transform_geo_ok; lra | ].
  split; [ apply transform_geo_ok; lra | ].
  cbn [row column]. split; intros Hle; apply int_monotone.
  - apply Qdiv_le_pos; [ exact Hx | lra ].
  - apply Qdiv_le_neg; [ exact Hy | lra ].
Qed.

Lemma transform_geo_monotone_witness :
  exists rc1 rc2,
    transform_geo (mkGeoCoordinate (-1767039) 2940090)
                  (mkGeoAffine (-1815585) 30 0 3014805 0 (-30)) = Ok rc1 /\
    transform_geo (mkGeoCoordinate (-1767000) 2940100)
                  (mkGeoAffine (-1815585) 30 0 3014805 0 (-30)) = Ok rc2 /\
    (-1767039 <= -1767000 -> (column rc1 <= column rc2)%Z) /\
    (2940090 <= 2940100 -> (row rc2 <= row rc1)%Z).
Proof.
  apply (transform_geo_monotone
           (mkGeoCoordinate (-1767039) 2940090)
           (mkGeoCoordinate (-1767000) 2940100)
           (mkGeoAffine (-1815585) 30 0 3014805 0 (-30)));
    reflexivity.
Defined.

(** X20.  Under such an affine [transform_ext] keeps an extent well
    formed: a GeoExtent with [xmin <= xmax] and [ymin <= ymax] becomes a
    RowColumnExtent with [st_row <= end_row] and [st_col <= end_col], so
    the window that [extract_geoextent] asks for has no negative size. *)
Theorem transform_ext_well_formed (e : GeoExtent) (affine : GeoAffine) :
  0 < xres affine -> yres affine < 0 ->
  xmin e <= xmax e -> ymin e <= ymax e ->
  exists rc : RowColumnExtent,
    transform_ext (OfGeoExtent e) affine = Ok (OfRowColumnExtent rc) /\
    (st_row rc <= end_row rc)%Z /\ (st_col rc <= end_col rc)%Z.
Proof.
  intros Hx Hy Hxs Hys.
  destruct (transform_ext_geo_ok e affine) as (ul & lr & Hul & Hlr & Hext);
    try lra.
  eexists. split; [ exact Hext | ].
  rewrite transform_geo_ok in Hul, Hlr by lra.
  injection Hul as <-. injection Hlr as <-.
  cbn [st_row st_col end_row end_col row column x y].
  split; apply int_monotone.
  - apply Qdiv_le_neg; [ exact Hy | lra ].
  - apply Qdiv_le_pos; [ exact Hx | lra ].
Qed.

Lemma transform_ext_well_formed_witness :
  exists rc : RowColumnExtent,
    transform_ext (OfGeoExtent (mkGeoExtent 30 0 90 (-90)))
                  (mkGeoAffine 0 30 0 0 0 (-30))
    = Ok (OfRowColumnExtent rc) /\
    (st_row rc <= end_row rc)%Z /\ (st_col rc <= end_col rc)%Z.
Proof.
  apply (transform_ext_well_formed (mkGeoExtent 30 0 90 (-90))
                                   (mkGeoAffine 0 30 0 0 0 (-30)));
    cbn [xres yres xmin xmax ymin ymax]; try reflexivity;
    intros H; discriminate H.
Defined.

(** X21.  With the default chip affine [chipul] raises for no coordinate,
    and its result is a point of the chip lattice anchored at the reference
    origin that lies less than one chip side (3000 units) from the
    coordinate in [x] and in [y], on whichever side of the origin the
    coordinate is. *)
Theorem chipul_lattice_near (coord : GeoCoordinate) :
  exists (ul : GeoCoordinate) (i j : Z),
    chipul coord ARDCONUS_CHIPAFF = Ok ul /\
    x ul == xmin ARDCONUS_EXT + inject_Z i * 3000 /\
    y ul == ymax ARDCONUS_EXT - inject_Z j * 3000 /\
    -3000 < x coord - x ul < 3000 /\
    -3000 < y coord - y ul < 3000.
Proof.
  unfold chipul.
  rewrite transform_geo_ok;
    [ | cbn [xres ARDCONUS_CHIPAFF]; intros H; discriminate H
      | cbn [yres ARDCONUS_CHIPAFF]; intros H; discriminate H ].
  cbn [bind].
  cbn [ARDCONUS_CHIPAFF ARDCONUS_EXT xmin ymax ulx uly xres yres rot1 rot2].
  set (A := (x coord - -2565585 - 3314805 * 0) / 3000).
  set (B := (y coord - 3314805 - -2565585 * 0) / -3000).
  assert (EA : A == (x coord + 2565585) * (1 # 3000)) by (unfold A; field).
  assert (EB : B == (3314805 - y coord) * (1 # 3000)) by (unfold B; field).
  pose proof (int_near A) as HA. pose proof (int_near B) as HB.
  set (c := int A) in *. set (r := int B) in *.
  rewrite EA in HA. rewrite EB in HB.
  exists (transform_rc (mkRowColumn r c)
                       (mkGeoAffine (-2565585) 3000 0 3314805 0 (-3000))),
         c, r.
  split; [ reflexivity | ].
  unfold transform_rc. cbv zeta. cbn [x y row column ulx uly xres yres rot1 rot2].
  repeat split; lra.
Qed.

(** * Evaluation in binary64 *)

(** ** Rounding *)

(** The nearest integer is at most one half away. *)
Lemma round_half_even_near (a : Q) :
  - (1 # 2) <= inject_Z (round_half_even a) - a <= 1 # 2.
Proof.
  unfold round_half_even.
  pose proof (Qfloor_le a) as Hlo. pose proof (Qlt_floor a) as Hhi.
  rewrite inject_Z_plus in Hhi. change (inject_Z 1) with 1 in Hhi.
  destruct (Qcompare_spec (a - inject_Z (Qfloor a)) (1 # 2)) as [E | L | G].
  - destruct (Z.even (Qfloor a)).
    + lra.
    + rewrite inject_Z_plus. change (inject_Z 1) with 1. lra.
  - lra.
  - rewrite inject_Z_plus. change (inject_Z 1) with 1. lra.
Qed.

Lemma round_half_even_whole (a : Q) (z : Z) :
  a == inject_Z z -> round_half_even a = z.
Proof.
  intros E. unfold round_half_even.
  rewrite (Qfloor_comp _ _ E), Qfloor_Z.
  destruct (Qcompare_spec (a - inject_Z z) (1 # 2)) as [H | H | H];
    try reflexivity; exfalso; lra.
Qed.

Lemma Qabs_num_den (a : Q) :
  Qabs a == inject_Z (Z.abs (Qnum a)) / inject_Z (Zpos (Qden a)).
Proof.
  destruct a as [n d]. unfold Qabs. cbn [Qnum Qden].
  rewrite (Qmake_Qdiv (Z.abs n) d). reflexivity.
Qed.

Lemma binade_le (a : Q) : ~ a == 0 -> 2 ^ binade a <= Qabs a.
Proof.
  intros Ha. unfold binade.
  set (n := Z.abs (Qnum a)). set (d := Zpos (Qden a)).
  set (e := (Z.log2 n - Z.log2 d)%Z).
  destruct (Qle_bool (2 ^ e) (Qabs a)) eqn:T.
  - now apply Qle_bool_iff.
  - assert (Hn : (0 < n)%Z).
    { unfold n. destruct a as [[|p|p] q]; cbn [Qnum Z.abs]; try lia.
      exfalso. apply Ha. reflexivity. }
    assert (Hd : (0 < d)%Z) by (unfold d; lia).
    destruct (Z.log2_spec n Hn) as [N1 _].
    destruct (Z.log2_spec d Hd) as [_ D2].
    rewrite (Qabs_num_den a). fold n. fold d.
    assert (Qd : 0 < inject_Z d).
    { change 0 with (inject_Z 0). now rewrite <- Zlt_Qlt. }
    apply Qle_shift_div_l; [ exact Qd | ].
    replace (e - 1)%Z with (Z.log2 n - (Z.log2 d + 1))%Z by (unfold e; lia).
    rewrite Qpower_minus by (intros H; discriminate H).
    change 2 with (inject_Z 2).
    rewrite <- !Zpower_Qpower
      by (try apply Z.log2_nonneg; pose proof (Z.log2_nonneg d); lia).
    set (P := (2 ^ Z.log2 n)%Z) in *. set (R := (2 ^ (Z.log2 d + 1))%Z) in *.
    assert (QR : 0 < inject_Z R).
    { change 0 with (inject_Z 0). rewrite <- Zlt_Qlt. lia. }
    unfold Qdiv. rewrite <- Qmult_assoc, (Qmult_comm (/ inject_Z R)), Qmult_assoc.
    apply Qle_shift_div_r; [ exact QR | ].
    rewrite <- !inject_Z_mult. rewrite <- Zle_Qle. nia.
Qed.

Lemma Qpower2_pos (e : Z) : 0 < 2 ^ e.
Proof. apply Qpower_0_lt. reflexivity. Qed.

(** The rounding error: half a unit in the last place. *)
Lemma binary64_error (a : Q) :
  exists t : Q,
    - t <= binary64 a - a <= t /\
    (t <= Qabs a * 2 ^ (-53) \/ t <= 2 ^ (-1075)).
Proof.
  unfold binary64.
  destruct (Qeq_bool a 0) eqn:Z0.
  - apply Qeq_bool_iff in Z0. exists 0. split; [ lra | ].
    left. apply Qmult_le_0_compat;
      [ apply Qabs_nonneg | apply Qlt_le_weak, Qpower2_pos ].
  - assert (Ha : ~ a == 0).
    { intros H. apply Qeq_bool_iff in H. congruence. }
    cbv zeta. set (e := Z.max (binade a - 52) (-1074)).
    pose proof (Qpower2_pos e) as He.
    pose proof (round_half_even_near (a / 2 ^ e)) as [N1 N2].
    set (m := inject_Z (round_half_even (a / 2 ^ e))) in *.
    exists ((1 # 2) * 2 ^ e). split.
    + assert (E : m * 2 ^ e - a == (m - a / 2 ^ e) * 2 ^ e) by (field; lra).
      rewrite E. split.
      * setoid_replace (- ((1 # 2) * 2 ^ e)) with (- (1 # 2) * 2 ^ e) by ring.
        apply Qmult_le_compat_r; lra.
      * apply Qmult_le_compat_r; lra.
    + unfold e. destruct (Z.max_spec (binade a - 52) (-1074)) as [[_ M] | [_ M]];
        rewrite M.
      * right. apply Qle_lteq. right. reflexivity.
      * left. pose proof (binade_le a Ha) as B.
        replace (binade a - 52)%Z with (binade a + -52)%Z by lia.
        rewrite Qpower_plus by (intros H; discriminate H).
        setoid_replace ((1 # 2) * (2 ^ binade a * 2 ^ (-52)))
          with (2 ^ binade a * 2 ^ (-53)) by (change (2 ^ (-52)) with (1 # 4503599627370496); change (2 ^ (-53)) with (1 # 9007199254740992); ring).
        apply Qmult_le_compat_r; [ exact B | ]. apply Qlt_le_weak, Qpower2_pos.
Qed.

Lemma binary64_whole (a : Q) (z : Z) :
  a == inject_Z z -> (Z.abs z < 2 ^ 53)%Z -> binary64 a == inject_Z z.
Proof.
  intros E Hz. unfold binary64.
  destruct (Qeq_bool a 0) eqn:Z0.
  - apply Qeq_bool_iff in Z0. rewrite <- E, Z0. reflexivity.
  - assert (Ha : ~ a == 0).
    { intros H. apply Qeq_bool_iff in H. congruence. }
    cbv zeta. set (e := Z.max (binade a - 52) (-1074)).
    assert (He : (e <= 0)%Z).
    { pose proof (binade_le a Ha) as B.
      assert (A : Qabs a < 2 ^ 53).
      { apply Qabs_Qlt_condition. rewrite E.
        change (2 ^ 53) with (inject_Z (2 ^ 53)).
        rewrite <- inject_Z_opp, <- !Zlt_Qlt. lia. }
      assert (P : 2 ^ binade a < 2 ^ 53) by (eapply Qle_lt_trans; eassumption).
      apply Qpower_lt_compat_l_inv in P; [ | reflexivity ].
      unfold e. lia. }
    pose proof (Qpower2_pos e) as Pe. pose proof (Qpower2_pos (- e)) as Pn.
    assert (I : 2 ^ e * 2 ^ (- e) == 1).
    { rewrite <- Qpower_plus by (intros H; discriminate H).
      now rewrite Z.add_opp_diag_r. }
    assert (W : a / 2 ^ e == inject_Z (z * 2 ^ (- e))).
    { rewrite inject_Z_mult, Zpower_Qpower by lia.
      change (inject_Z 2) with 2. rewrite E.
      rewrite Qpower_opp. reflexivity. }
    rewrite (round_half_even_whole _ _ W).
    rewrite inject_Z_mult, Zpower_Qpower by lia.
    change (inject_Z 2) with 2.
    rewrite <- Qmult_assoc, (Qmult_comm (2 ^ (- e))), I. ring.
Qed.

(** The quotient of two whole numbers, the dividend below [2^53] and the
    divisor at most [2^53] in magnitude, keeps its integer part when it is
    rounded to binary64. *)
Lemma int_binary64_pos (q : Q) (n d : Z) :
  q == inject_Z n / inject_Z d ->
  (0 < d <= 2 ^ 53)%Z -> (Z.abs n < 2 ^ 53)%Z ->
  int (binary64 q) = int q.
Proof.
  intros Eq Hd Hn.
  set (D := inject_Z d).
  assert (QD : 0 < D).
  { unfold D. change 0 with (inject_Z 0). rewrite <- Zlt_Qlt. lia. }
  assert (QD' : D <= 9007199254740992).
  { unfold D. change 9007199254740992 with (inject_Z (2 ^ 53)).
    rewrite <- Zle_Qle. lia. }
  assert (Hq : q * D == inject_Z n).
  { rewrite Eq. fold D. field. lra. }
  assert (Nlo : - (9007199254740992) < inject_Z n).
  { change (- (9007199254740992)) with (inject_Z (- 2 ^ 53)).
    rewrite <- Zlt_Qlt. lia. }
  assert (Nhi : inject_Z n < 9007199254740992).
  { change 9007199254740992 with (inject_Z (2 ^ 53)).
    rewrite <- Zlt_Qlt. lia. }
  set (u := / D).
  assert (Hu : u * D == 1) by (unfold u; field; lra).
  assert (Pu : 0 < u) by (unfold u; apply Qinv_lt_0_compat; exact QD).
  set (k := int q).
  pose proof (int_truncates q) as [Tp Tn]. fold k in Tp, Tn.
  destruct (Qeq_dec q (inject_Z k)) as [Ei | Ni].
  - (* the quotient is a whole number *)
    assert (Hk : (Z.abs k < 2 ^ 53)%Z).
    { assert (E : inject_Z (k * d) == inject_Z n).
      { rewrite inject_Z_mult. fold D. now rewrite <- Ei. }
      apply (proj1 (inject_Z_injective _ _)) in E.
      assert (A : (Z.abs k * d = Z.abs n)%Z).
      { rewrite <- E, Z.abs_mul. f_equal. lia. }
      pose proof (Z.abs_nonneg k). nia. }
    rewrite (int_comp _ _ (binary64_whole q k Ei Hk)). apply int_inject_Z.
  - (* the quotient lies strictly between two whole numbers *)
    destruct (binary64_error q) as (t & [E1 E2] & Ht).
    set (f := binary64 q) in *.
    assert (Tu : t < u).
    { destruct Ht as [Ht | Ht].
      - assert (A : Qabs q < 9007199254740992 * u).
        { apply Qabs_Qlt_condition.
          assert (X : q == inject_Z n * u).
          { rewrite <- Hq. rewrite <- Qmult_assoc, (Qmult_comm D), Hu. ring. }
          rewrite X. split.
          - setoid_replace (- (9007199254740992 * u))
              with (- (9007199254740992) * u) by ring.
            apply Qmult_lt_compat_r; assumption.
          - apply Qmult_lt_compat_r; assumption. }
        change (2 ^ (-53)) with (1 # 9007199254740992) in Ht. lra.
      - assert (B : 2 ^ (-1075) < 1 # 9007199254740992) by reflexivity.
        assert (C : (1 # 9007199254740992) <= u).
        { unfold u. apply Qle_shift_inv_l; [ exact QD | lra ]. }
        lra. }
    assert (Below : forall j : Z, inject_Z j < q -> inject_Z j + u <= q).
    { intros j Hj.
      assert (Z1 : (j * d + 1 <= n)%Z).
      { assert (Z2 : inject_Z (j * d) < inject_Z n).
        { rewrite inject_Z_mult, <- Hq. fold D.
          apply Qmult_lt_compat_r; assumption. }
        rewrite <- Zlt_Qlt in Z2. lia. }
      rewrite Zle_Qle, inject_Z_plus, inject_Z_mult, <- Hq in Z1. fold D in Z1.
      change (inject_Z 1) with 1 in Z1.
      setoid_replace (inject_Z j + u) with ((inject_Z j * D + 1) * u)
        by (rewrite Qmult_plus_distr_l, <- Qmult_assoc, (Qmult_comm D), Hu; ring).
      setoid_replace q with ((q * D) * u)
        by (rewrite <- Qmult_assoc, (Qmult_comm D), Hu; ring).
      apply Qmult_le_compat_r; [ exact Z1 | lra ]. }
    assert (Above : forall j : Z, q < inject_Z j -> q + u <= inject_Z j).
    { intros j Hj.
      assert (Z1 : (n + 1 <= j * d)%Z).
      { assert (Z2 : inject_Z n < inject_Z (j * d)).
        { rewrite inject_Z_mult, <- Hq. fold D.
          apply Qmult_lt_compat_r; assumption. }
        rewrite <- Zlt_Qlt in Z2. lia. }
      rewrite Zle_Qle, inject_Z_plus, inject_Z_mult, <- Hq in Z1. fold D in Z1.
      change (inject_Z 1) with 1 in Z1.
      setoid_replace (q + u) with ((q * D + 1) * u)
        by (rewrite Qmult_plus_distr_l, <- Qmult_assoc, (Qmult_comm D), Hu; ring).
      setoid_replace (inject_Z j) with ((inject_Z j * D) * u)
        by (rewrite <- Qmult_assoc, (Qmult_comm D), Hu; ring).
      apply Qmult_le_compat_r; [ exact Z1 | lra ]. }
    apply (truncates_unique _ _ f (int_truncates f)).
    destruct (Qlt_le_dec q 0) as [Neg | Pos].
    + assert (Hq0 : q <= 0) by lra. destruct (Tn Hq0) as [L1 L2].
      assert (L3 : q < inject_Z k) by (apply Qle_lteq in L2; destruct L2 as [L2 | L2]; [ exact L2 | contradiction ]).
      pose proof (Below _ L1) as B1. pose proof (Above _ L3) as B2.
      assert (K0 : inject_Z k <= 0).
      { change 0 with (inject_Z 0). rewrite <- Zle_Qle.
        assert (inject_Z (k - 1) < inject_Z 0) by (change (inject_Z 0) with 0; lra).
        rewrite <- Zlt_Qlt in H. lia. }
      split; intros Hf; lra.
    + destruct (Tp Pos) as [L1 L2].
      assert (L3 : inject_Z k < q).
      { apply Qle_lteq in L1; destruct L1 as [L1 | L1]; [ exact L1 | ].
        exfalso. apply Ni. now symmetry. }
      pose proof (Below _ L3) as B1. pose proof (Above _ L2) as B2.
      assert (K0 : 0 <= inject_Z k).
      { change 0 with (inject_Z 0). rewrite <- Zle_Qle.
        assert (inject_Z 0 < inject_Z (k + 1)) by (change (inject_Z 0) with 0; lra).
        rewrite <- Zlt_Qlt in H. lia. }
      split; intros Hf; lra.
Qed.

Lemma int_binary64_quotient (q : Q) (n d : Z) :
  q == inject_Z n / inject_Z d -> d <> 0%Z ->
  (Z.abs d <= 2 ^ 53)%Z -> (Z.abs n < 2 ^ 53)%Z ->
  int (binary64 q) = int q.
Proof.
  intros Eq Hd0 Hd Hn.
  destruct (Z_lt_le_dec 0 d) as [Pd | Nd].
  - apply (int_binary64_pos q n d Eq); lia.
  - apply (int_binary64_pos q (- n) (- d)); try lia.
    rewrite Eq, !inject_Z_opp. field.
    intros H. apply Hd0. apply (proj1 (inject_Z_injective d 0)). exact H.
Qed.

(** ** Whole numbers *)

Lemma whole_inject (a : Num) :
  whole a ->
  exists z : Z, a == inject_Z z /\ (-33554432 <= z <= 33554432)%Z.
Proof.
  intros [E [L H]]. exists (Qfloor a). split; [ exact E | ].
  rewrite E in L, H.
  change (-33554432) with (inject_Z (-33554432)) in L.
  change 33554432 with (inject_Z 33554432) in H.
  rewrite <- Zle_Qle in L, H. lia.
Qed.

Lemma int_quotient (n d : Z) :
  d <> 0%Z -> int (inject_Z n / inject_Z d) = Z.quot n d.
Proof.
  intros Hd. destruct d as [ | p | p ]; [ contradiction | | ].
  - unfold int, Qdiv, Qinv, Qmult, inject_Z. cbn [Qnum Qden].
    now rewrite Z.mul_1_r, Pos.mul_1_l.
  - unfold int, Qdiv, Qinv, Qmult, inject_Z. cbn [Qnum Qden].
    rewrite Pos.mul_1_l.
    replace (n * Z.neg 1)%Z with (- n)%Z by lia.
    change (Z.neg p) with (- Z.pos p)%Z.
    rewrite Z.quot_opp_l, Z.quot_opp_r by discriminate. reflexivity.
Qed.

(** One axis of [transform_geo]: on whole numbers the three float
    operations before the division are exact, and the division keeps the
    integer part. *)
Lemma float_axis_exact (c o p r s : Num) :
  whole c -> whole o -> whole p -> whole r -> whole s -> ~ s == 0 ->
  int (binary64 (float_sub (float_sub c o) (float_mul p r) / s))
  = int ((c - o - p * r) / s).
Proof.
  intros Hc Ho Hp Hr Hs Hs0.
  destruct (whole_inject c Hc) as (zc & Ec & Bc).
  destruct (whole_inject o Ho) as (zo & Eo & Bo).
  destruct (whole_inject p Hp) as (zp & Ep & Bp).
  destruct (whole_inject r Hr) as (zr & Er & Br).
  destruct (whole_inject s Hs) as (zs & Es & Bs).
  assert (Bpr : (- 1125899906842624 <= zp * zr <= 1125899906842624)%Z) by nia.
  assert (E1 : float_sub c o == inject_Z (zc - zo)).
  { unfold float_sub. apply binary64_whole; [ | lia ].
    now rewrite Ec, Eo, inject_Z_sub. }
  assert (E2 : float_mul p r == inject_Z (zp * zr)).
  { unfold float_mul. apply binary64_whole; [ | lia ].
    now rewrite Ep, Er, inject_Z_mult. }
  assert (E3 : float_sub (float_sub c o) (float_mul p r)
               == inject_Z (zc - zo - zp * zr)).
  { unfold float_sub at 1. apply binary64_whole; [ | lia ].
    now rewrite E1, E2, <- inject_Z_sub. }
  assert (Hzs : zs <> 0%Z).
  { intros H. apply Hs0. rewrite Es, H. reflexivity. }
  rewrite (int_binary64_quotient _ (zc - zo - zp * zr) zs); try lia.
  - apply int_comp. rewrite E3, Ec, Eo, Ep, Er.
    now rewrite !inject_Z_sub, inject_Z_mult.
  - now rewrite E3, Es.
Qed.

(** On whole numbers the float evaluation of [transform_geo] is the exact
    one. *)
Lemma transform_geo_float_exact (coord : GeoCoordinate) (affine : GeoAffine) :
  whole_coordinate coord -> whole_affine affine ->
  transform_geo_float coord affine = transform_geo coord affine.
Proof.
  intros [Hx Hy] (Hox & Hsx & Hr1 & Hoy & Hr2 & Hsy).
  unfold transform_geo_float, transform_geo, float_truediv, truediv.
  destruct (Qeq_bool (xres affine) 0) eqn:Zx; [ reflexivity | ].
  cbn [bind].
  destruct (Qeq_bool (yres affine) 0) eqn:Zy; [ reflexivity | ].
  cbn [bind].
  assert (Nx : ~ xres affine == 0).
  { intros H. apply Qeq_bool_iff in H. congruence. }
  assert (Ny : ~ yres affine == 0).
  { intros H. apply Qeq_bool_iff in H. congruence. }
  f_equal. f_equal; apply float_axis_exact; assumption.
Qed.

(** One axis of [transform_rc]: with a whole affine and a row and a
    column in range, the two products and the two sums are exact. *)
Lemma float_axis_rc_exact (o s t : Num) (c r : Z) :
  whole o -> whole s -> whole t -> in_range c -> in_range r ->
  float_add (float_add o (float_mul (inject_Z c) s)) (float_mul (inject_Z r) t)
  == o + inject_Z c * s + inject_Z r * t.
Proof.
  intros Ho Hs Ht Hc Hr. unfold in_range in Hc, Hr.
  destruct (whole_inject o Ho) as (zo & Eo & Bo).
  destruct (whole_inject s Hs) as (zs & Es & Bs).
  destruct (whole_inject t Ht) as (zt & Et & Bt).
  assert (Bcs : (- 2251799813685248 <= c * zs <= 2251799813685248)%Z) by nia.
  assert (Brt : (- 2251799813685248 <= r * zt <= 2251799813685248)%Z) by nia.
  assert (E1 : float_mul (inject_Z c) s == inject_Z (c * zs)).
  { unfold float_mul. apply binary64_whole; [ | lia ].
    now rewrite Es, inject_Z_mult. }
  assert (E2 : float_mul (inject_Z r) t == inject_Z (r * zt)).
  { unfold float_mul. apply binary64_whole; [ | lia ].
    now rewrite Et, inject_Z_mult. }
  assert (E3 : float_add o (float_mul (inject_Z c) s)
               == inject_Z (zo + c * zs)).
  { unfold float_add. apply binary64_whole; [ | lia ].
    now rewrite E1, Eo, inject_Z_plus. }
  unfold float_add at 1.
  rewrite (binary64_whole _ (zo + c * zs + r * zt)); [ | | lia ].
  - rewrite Eo, Es, Et, !inject_Z_plus, !inject_Z_mult. reflexivity.
  - now rewrite E3, E2, <- inject_Z_plus.
Qed.

Lemma transform_rc_float_exact (rowcol : RowColumn) (affine : GeoAffine) :
  in_range (row rowcol) -> in_range (column rowcol) -> whole_affine affine ->
  x (transform_rc_float rowcol affine) == x (transform_rc rowcol affine) /\
  y (transform_rc_float rowcol affine) == y (transform_rc rowcol affine).
Proof.
  intros Hr Hc (Hox & Hsx & Hr1 & Hoy & Hr2 & Hsy).
  unfold transform_rc_float, transform_rc. cbv zeta. cbn [x y].
  split; apply float_axis_rc_exact; assumption.
Qed.

(** The magnitude of a row or a column that [transform_geo] computes from
    whole numbers under an affine without rotation. *)
Lemma int_axis_in_range (c o p r s : Num) :
  whole c -> whole o -> whole s -> ~ s == 0 -> r == 0 ->
  in_range (int ((c - o - p * r) / s)).
Proof.
  intros Hc Ho Hs Hs0 Hr0.
  destruct (whole_inject c Hc) as (zc & Ec & Bc).
  destruct (whole_inject o Ho) as (zo & Eo & Bo).
  destruct (whole_inject s Hs) as (zs & Es & Bs).
  assert (Hzs : zs <> 0%Z).
  { intros H. apply Hs0. rewrite Es, H. reflexivity. }
  assert (E : (c - o - p * r) / s == inject_Z (zc - zo) / inject_Z zs).
  { rewrite Hr0, Ec, Eo, Es, inject_Z_sub. apply Qdiv_comp; [ ring | reflexivity ]. }
  rewrite (int_comp _ _ E), (int_quotient _ _ Hzs).
  unfold in_range.
  pose proof (Z.quot_abs (zc - zo) zs Hzs) as A.
  assert (B : (Z.abs (zc - zo) ÷ Z.abs zs <= Z.abs (zc - zo))%Z).
  { rewrite Z.quot_div_nonneg by lia.
    apply Z.div_le_upper_bound; [ lia | ]. nia. }
  lia.
Qed.

(** ** The transforms on floats *)

(** X22.  On whole numbers of magnitude at most [2^25], [transform_geo]
    computes in floats, every operation rounded to binary64, what it
    computes exactly, errors included, and so does [determine_hv]: for
    every such coordinate and every such affine, rotated or not. *)
Theorem transform_geo_float_whole (coord : GeoCoordinate) (affine : GeoAffine) :
  whole_coordinate coord -> whole_affine affine ->
  transform_geo_float coord affine = transform_geo coord affine /\
  determine_hv_float coord affine = determine_hv coord affine.
Proof.
  intros Hc Ha. unfold determine_hv_float, determine_hv.
  rewrite (transform_geo_float_exact coord affine Hc Ha).
  split; reflexivity.
Qed.

Lemma transform_geo_float_whole_witness :
  transform_geo_float (mkGeoCoordinate (-1767039) 2940090)
                      (mkGeoAffine (-1815585) 30 0 3014805 0 (-30))
  = transform_geo (mkGeoCoordinate (-1767039) 2940090)
                  (mkGeoAffine (-1815585) 30 0 3014805 0 (-30)) /\
  determine_hv_float (mkGeoCoordinate (-1767039) 2940090)
                     (mkGeoAffine (-1815585) 30 0 3014805 0 (-30))
  = determine_hv (mkGeoCoordinate (-1767039) 2940090)
                 (mkGeoAffine (-1815585) 30 0 3014805 0 (-30)).
Proof.
  apply (transform_geo_float_whole
           (mkGeoCoordinate (-1767039) 2940090)
           (mkGeoAffine (-1815585) 30 0 3014805 0 (-30)));
    unfold whole_coordinate, whole_affine, whole, bounded;
    cbn [x y ulx xres rot1 uly rot2 yres];
    repeat split; try reflexivity; intros H; discriminate H.
Defined.

(** X23.  With an affine of whole numbers of magnitude at most [2^25] and
    a row and a column of magnitude at most [2^26], [transform_rc]
    computes in floats, every operation rounded to binary64, the
    coordinate it computes exactly. *)
Theorem transform_rc_float_whole (rowcol : RowColumn) (affine : GeoAffine) :
  in_range (row rowcol) -> in_range (column rowcol) -> whole_affine affine ->
  x (transform_rc_float rowcol affine) == x (transform_rc rowcol affine) /\
  y (transform_rc_float rowcol affine) == y (transform_rc rowcol affine).
Proof. apply transform_rc_float_exact. Qed.

Lemma transform_rc_float_whole_witness :
  x (transform_rc_float (mkRowColumn 2490 1618)
                        (mkGeoAffine (-1815585) 30 0 3014805 0 (-30)))
  == x (transform_rc (mkRowColumn 2490 1618)
                     (mkGeoAffine (-1815585) 30 0 3014805 0 (-30))) /\
  y (transform_rc_float (mkRowColumn 2490 1618)
                        (mkGeoAffine (-1815585) 30 0 3014805 0 (-30)))
  == y (transform_rc (mkRowColumn 2490 1618)
                     (mkGeoAffine (-1815585) 30 0 3014805 0 (-30))).
Proof.
  apply (transform_rc_float_whole
           (mkRowColumn 2490 1618)
           (mkGeoAffine (-1815585) 30 0 3014805 0 (-30)));
    unfold in_range, whole_affine, whole, bounded;
    cbn [row column ulx xres rot1 uly rot2 yres];
    repeat split; try reflexivity; intros H; discriminate H.
Defined.

(** X24.  On whole numbers of magnitude at most [2^25], under an affine
    without rotation, [chipul] computes in floats, every operation rounded
    to binary64, the point it computes exactly, and fails in floats when
    it fails exactly. *)
Theorem chipul_float_whole (coord : GeoCoordinate) (aff : GeoAffine) :
  whole_coordinate coord -> whole_affine aff ->
  rot1 aff == 0 -> rot2 aff == 0 ->
  (forall e, chipul coord aff = Raise e -> chipul_float coord aff = Raise e) /\
  (forall p, chipul coord aff = Ok p ->
             exists p', chipul_float coord aff = Ok p' /\
                        x p' == x p /\ y p' == y p).
Proof.
  intros Hc Ha R1 R2. unfold chipul_float, chipul.
  rewrite (transform_geo_float_exact coord aff Hc Ha).
  destruct Hc as [Hx Hy].
  pose proof Ha as (Hox & Hsx & _ & Hoy & _ & Hsy).
  destruct (Qeq_dec (xres aff) 0) as [Zx | Nx].
  { rewrite (transform_geo_raises coord aff (or_introl Zx)). cbn [bind].
    split; [ intros e H; exact H | intros p H; discriminate H ]. }
  destruct (Qeq_dec (yres aff) 0) as [Zy | Ny].
  { rewrite (transform_geo_raises coord aff (or_intror Zy)). cbn [bind].
    split; [ intros e H; exact H | intros p H; discriminate H ]. }
  rewrite (transform_geo_ok coord aff Nx Ny). cbn [bind].
  split; [ intros e H; discriminate H | ].
  intros p H. injection H as <-.
  eexists. split; [ reflexivity | ].
  apply transform_rc_float_exact; cbn [row column];
    try exact Ha; apply int_axis_in_range; assumption.
Qed.

Lemma chipul_float_whole_witness :
  (forall e, chipul (mkGeoCoordinate (-1767039) 2940090) ARDCONUS_CHIPAFF
             = Raise e ->
             chipul_float (mkGeoCoordinate (-1767039) 2940090) ARDCONUS_CHIPAFF
             = Raise e) /\
  (forall p, chipul (mkGeoCoordinate (-1767039) 2940090) ARDCONUS_CHIPAFF
             = Ok p ->
             exists p',
               chipul_float (mkGeoCoordinate (-1767039) 2940090)
                            ARDCONUS_CHIPAFF = Ok p' /\
               x p' == x p /\ y p' == y p).
Proof.
  apply (chipul_float_whole (mkGeoCoordinate (-1767039) 2940090)
                            ARDCONUS_CHIPAFF);
    unfold whole_coordinate, whole_affine, whole, bounded;
    cbn [x y ulx xres rot1 uly rot2 yres ARDCONUS_CHIPAFF ARDCONUS_EXT
         xmin ymax];
    repeat split; try reflexivity; intros H; discriminate H.
Defined.

(** Next to a cell boundary a fractional coordinate changes cell in
    floats: [434415 - 2^-34] is the float just below [434415], the left
    edge of chip column 1000.  The sum [x + 2565585] rounds to [3000000],
    so the float evaluation returns column 1000 and a chip whose left edge
    is right of the coordinate, where the exact evaluation returns column
    999. *)
Example transform_geo_float_boundary :
  let coord := mkGeoCoordinate (434415 - (1 # 17179869184)) 2940090 in
  binary64 (x coord) == x coord /\
  transform_geo coord ARDCONUS_CHIPAFF = Ok (mkRowColumn 124 999) /\
  transform_geo_float coord ARDCONUS_CHIPAFF = Ok (mkRowColumn 124 1000) /\
  x coord < x (transform_rc_float (mkRowColumn 124 1000) ARDCONUS_CHIPAFF).
Proof.
  cbv zeta. repeat split; vm_compute; reflexivity.
Qed.
